(** * function_proxy: remapping a call of one function onto another

    A shallow embedding of [src/function_proxy.py].  The module has one
    function, [proxy_function], which binds [*args, **kwargs] against the
    signature of [superfunc] (through [inspect.getcallargs]), lets [mapping]
    override the bound names, and then rebuilds positional and keyword
    arguments for [subfunc] from its [inspect.getfullargspec].

    Layout:
    - [Py]: the Python values and exceptions the function can touch;
    - [Inspect]: signatures, [getfullargspec] and [getcallargs] as CPython's
      [inspect] module computes them;
    - [proxy_function] and the loops it is made of;
    - the properties of the specification. *)

From stdpp Require Import gmap strings list fin_maps.

Local Open Scope string_scope.
Local Open Scope list_scope.
#[local] Set Warnings "-register-all".

(** ** Python values and exceptions *)

Module Py.

(** Dictionary keys: the hashable scalars that occur here. *)
Inductive key :=
  | KInt (z : Z)
  | KStr (s : string).

(** Values.  A [dict] keeps its entries in insertion order. *)
Inductive value :=
  | VNone
  | VInt (z : Z)
  | VStr (s : string)
  | VTuple (items : list value)
  | VList (items : list value)
  | VDict (entries : list (key * value)).

#[global] Instance key_eq_dec : EqDecision key.
Proof. solve_decision. Defined.

Definition key_to_value (k : key) : value :=
  match k with
  | KInt z => VInt z
  | KStr s => VStr s
  end.

(** [d[k] = v] on an insertion-ordered dictionary: an existing key keeps its
    place, a new key goes last. *)
Fixpoint dict_setitem (d : list (key * value)) (k : key) (v : value)
  : list (key * value) :=
  match d with
  | [] => [(k, v)]
  | (k', v') :: d' =>
      if decide (k' = k) then (k, v) :: d' else (k', v') :: dict_setitem d' k v
  end.

Fixpoint chars (s : string) : list value :=
  match s with
  | EmptyString => []
  | String c s' => VStr (String c EmptyString) :: chars s'
  end.

(** What [*v] unpacks to; [None] when [v] is not iterable. *)
Definition iterate (v : value) : option (list value) :=
  match v with
  | VTuple items | VList items => Some items
  | VStr s => Some (chars s)
  | VDict entries => Some (key_to_value <$> entries.*1)
  | VNone | VInt _ => None
  end.

(** The reasons for which a [TypeError] is raised on the paths modelled. *)
Inductive type_error :=
  | UnexpectedKeyword (kw : string)
  | MultipleValues (kw : string)
  | TooManyPositional
  | MissingArguments (positional : bool) (names : list string)
  | NoItemAssignment
  | NotIterable
  | NotAMapping
  | KeywordsMustBeStrings
  | NoneNotContainer.

Inductive exn :=
  | TypeError (why : type_error)
  | ValueError (msg : string)
  | KeyError (k : string).

(** A computation either returns or raises. *)
Inductive result (A : Type) :=
  | Ok (a : A)
  | Raise (e : exn).
Arguments Ok {A} a.
Arguments Raise {A} e.

#[global] Instance result_ret : MRet result := λ A a, Ok a.
#[global] Instance result_bind : MBind result := λ A B f m,
  match m with
  | Ok a => f a
  | Raise e => Raise e
  end.

#[global] Instance result_fmap : FMap result := λ A B f m,
  match m with
  | Ok a => Ok (f a)
  | Raise e => Raise e
  end.

End Py.
Export Py.

(** ** The [inspect] module *)

Module Inspect.

(** A declared parameter: its name and, when it has one, its default. *)
Record parameter := Param {
  p_name : string;
  p_default : option value
}.

(** The declared shape of a function:
    [def f(positional..., *varargs, kwonly..., **varkw)]. *)
Record signature := Signature {
  sig_positional : list parameter;
  sig_varargs : option string;
  sig_kwonly : list parameter;
  sig_varkw : option string
}.

(** [inspect.FullArgSpec] without the annotations, which are not read. *)
Record FullArgSpec := {
  args : list string;
  varargs : option string;
  varkw : option string;
  defaults : option (list value);
  kwonlyargs : list string;
  kwonlydefaults : option (gmap string value)
}.

(** [inspect.getfullargspec]: [defaults] and [kwonlydefaults] are [None]
    rather than empty when no parameter of the kind has a default. *)
Definition getfullargspec (func : signature) : FullArgSpec :=
  let defaults := omap p_default (sig_positional func) in
  let kwdefaults :=
    foldl (λ (kd : gmap string value) p,
             match p_default p with
             | Some d => <[p_name p := d]> kd
             | None => kd
             end) ∅ (sig_kwonly func) in
  {| args := p_name <$> sig_positional func;
     varargs := sig_varargs func;
     varkw := sig_varkw func;
     defaults := if decide (defaults = []) then None else Some defaults;
     kwonlyargs := p_name <$> sig_kwonly func;
     kwonlydefaults := if decide (kwdefaults = ∅) then None else Some kwdefaults |}.

(** What the Python grammar guarantees of a [def]: a positional parameter
    with a default is followed only by parameters with defaults, and no name
    is declared twice. *)
Fixpoint defaults_trail (ps : list parameter) : bool :=
  match ps with
  | [] => true
  | p :: ps' =>
      match p_default p with
      | Some _ => forallb (λ q, bool_decide (is_Some (p_default q))) ps'
      | None => defaults_trail ps'
      end
  end.

Definition names (func : signature) : list string :=
  (p_name <$> sig_positional func) ++ option_list (sig_varargs func)
    ++ (p_name <$> sig_kwonly func) ++ option_list (sig_varkw func).

Definition well_formed (func : signature) : Prop :=
  defaults_trail (sig_positional func) = true ∧ NoDup (names func).

(** The keyword loop of [getcallargs]:
    [for kw, value in named.items(): ...]. *)
Fixpoint bind_named (varkw : option string) (possible_kwargs : list string)
    (named : list (string * value)) (arg2value : gmap string value)
  : result (gmap string value) :=
  match named with
  | [] => Ok arg2value
  | (kw, value) :: named' =>
      if bool_decide (kw ∈ possible_kwargs) then
        if bool_decide (is_Some (arg2value !! kw)) then
          Raise (TypeError (MultipleValues kw))
        else bind_named varkw possible_kwargs named' (<[kw := value]> arg2value)
      else
        match varkw with
        | None => Raise (TypeError (UnexpectedKeyword kw))
        | Some vk =>
            match arg2value !! vk with
            | Some (VDict d) =>
                bind_named varkw possible_kwargs named'
                  (<[vk := VDict (dict_setitem d (KStr kw) value)]> arg2value)
            | Some _ => Raise (TypeError NoItemAssignment)
            | None => Raise (KeyError vk)
            end
        end
  end.

(** [_missing_arguments(f_name, argnames, pos, values)] reports the names of
    [argnames] that have no value. *)
Definition missing_arguments (argnames : list string) (pos : bool)
    (values : gmap string value) : exn :=
  TypeError (MissingArguments pos
               (filter (λ name, values !! name = None) argnames)).

(** [for i in range(n): arg2value[args[i]] = positional[i]], with
    [n = min(num_pos, num_args)]. *)
Definition bind_positional (args : list string) (positional : list value)
  : gmap string value :=
  foldl (λ (m : gmap string value) '(arg, v), <[arg := v]> m) ∅
    (zip (take (length positional `min` length args) args) positional).

(** [for i, arg in enumerate(args[num_args - num_defaults:]): ...]: a
    parameter that still has no value takes its default. *)
Definition fill_defaults (tail : list string) (defaults : list value)
    (arg2value : gmap string value) : gmap string value :=
  foldl (λ (m : gmap string value) '(arg, d),
           if bool_decide (is_Some (m !! arg)) then m else <[arg := d]> m)
    arg2value (zip tail defaults).

(** [for kwarg in kwonlyargs: ...]: the values after the keyword-only
    defaults are filled in, and the count [missing]. *)
Definition fill_kwonly (kwonlydefaults : option (gmap string value))
    (kwonlyargs : list string) (arg2value : gmap string value)
  : gmap string value * nat :=
  foldl (λ '(m, missing) kwarg,
           if bool_decide (is_Some (m !! kwarg)) then (m, missing)
           else match kwonlydefaults ≫= (.!! kwarg) with
                | Some d => (<[kwarg := d]> m, missing)
                | None => (m, S missing)
                end)
    (arg2value, 0) kwonlyargs.

(** [inspect.getcallargs(func, *positional, **named)] for a plain function. *)
Definition getcallargs (func : signature) (positional : list value)
    (named : list (string * value)) : result (gmap string value) :=
  let spec := getfullargspec func in
  let num_pos := length positional in
  let num_args := length (args spec) in
  let dflts := default [] (defaults spec) in
  let num_defaults := length dflts in
  let n := num_pos `min` num_args in
  let arg2value := bind_positional (args spec) positional in
  let arg2value :=
    match varargs spec with
    | Some va => <[va := VTuple (drop n positional)]> arg2value
    | None => arg2value
    end in
  let possible_kwargs := args spec ++ kwonlyargs spec in
  let arg2value :=
    match varkw spec with
    | Some vk => <[vk := VDict []]> arg2value
    | None => arg2value
    end in
  arg2value ← bind_named (varkw spec) possible_kwargs named arg2value;
  _ ← (if bool_decide (num_args < num_pos) && bool_decide (varargs spec = None)
       then Raise (TypeError TooManyPositional) else Ok ());
  arg2value ←
    (if bool_decide (num_pos < num_args) then
       let req := take (num_args - num_defaults) (args spec) in
       if bool_decide (Forall (λ arg, is_Some (arg2value !! arg)) req) then
         Ok (fill_defaults (drop (num_args - num_defaults) (args spec)) dflts
               arg2value)
       else Raise (missing_arguments req true arg2value)
     else Ok arg2value);
  let '(arg2value, missing) :=
    fill_kwonly (kwonlydefaults spec) (kwonlyargs spec) arg2value in
  if bool_decide (missing ≠ 0)
  then Raise (missing_arguments (kwonlyargs spec) false arg2value)
  else Ok arg2value.

End Inspect.

(** ** [proxy_function] *)

Definition missing_positional (arg_name : string) : exn :=
  ValueError ("Missing required positional argument: '" +:+ arg_name +:+ "'.").

Definition missing_keyword (kwarg_name : string) : exn :=
  ValueError ("Missing required keyword argument: '" +:+ kwarg_name +:+ "'.").

(** [superfunc_arg_values.update(mapping)], guarded by [if mapping:]. *)
Definition apply_mapping (mapping superfunc_arg_values : gmap string value)
  : gmap string value :=
  if decide (mapping = ∅) then superfunc_arg_values
  else mapping ∪ superfunc_arg_values.

(** [subfunc_specs.defaults and default_num < len(subfunc_specs.defaults)],
    and then [subfunc_specs.defaults[default_num]]. *)
Definition default_at (defaults : option (list value)) (default_num : nat)
  : option value :=
  match defaults with
  | Some ds => if bool_decide (default_num < length ds) then ds !! default_num else None
  | None => None
  end.

(** The loop over the positional parameters of [subfunc]; [pairs] is
    [zip(subfunc_specs.args, range(len(subfunc_specs.args) - 1, -1, -1))]. *)
Fixpoint parse_positional (defaults : option (list value))
    (superfunc_arg_values : gmap string value)
    (pairs : list (string * nat)) (context_args : list value)
  : result (list value) :=
  match pairs with
  | [] => Ok context_args
  | (arg_name, default_num) :: pairs' =>
      match superfunc_arg_values !! arg_name with
      | Some v =>
          parse_positional defaults superfunc_arg_values pairs' (context_args ++ [v])
      | None =>
          match default_at defaults default_num with
          | Some d =>
              parse_positional defaults superfunc_arg_values pairs' (context_args ++ [d])
          | None => Raise (missing_positional arg_name)
          end
      end
  end.

(** [range(n - 1, -1, -1)]. *)
Definition countdown (n : nat) : list nat := reverse (seq 0 n).

(** [context_args = [*context_args, *superfunc_arg_values[varargs]]] when
    [subfunc] has [*varargs] and the name has a value. *)
Definition parse_varargs (varargs : option string)
    (superfunc_arg_values : gmap string value) (context_args : list value)
  : result (list value) :=
  match varargs with
  | Some va =>
      match superfunc_arg_values !! va with
      | Some v =>
          match iterate v with
          | Some items => Ok (context_args ++ items)
          | None => Raise (TypeError NotIterable)
          end
      | None => Ok context_args
      end
  | None => Ok context_args
  end.

(** The keyword unpacking of line 60, [dict] applied to [** v]: [v] has to
    be a mapping whose keys are all strings. *)
Fixpoint keywords (entries : list (key * value)) (acc : gmap string value)
  : result (gmap string value) :=
  match entries with
  | [] => Ok acc
  | (KStr s, v) :: entries' => keywords entries' (<[s := v]> acc)
  | (KInt _, _) :: _ => Raise (TypeError KeywordsMustBeStrings)
  end.

Definition dict_of (v : value) : result (gmap string value) :=
  match v with
  | VDict entries => keywords entries ∅
  | _ => Raise (TypeError NotAMapping)
  end.

Definition parse_varkw (varkw : option string)
    (superfunc_arg_values : gmap string value) : result (gmap string value) :=
  match varkw with
  | Some vk =>
      match superfunc_arg_values !! vk with
      | Some v => dict_of v
      | None => Ok ∅
      end
  | None => Ok ∅
  end.

(** The loop over [subfunc_specs.kwonlyargs].  [kwarg_name in
    subfunc_specs.kwonlydefaults] is a [TypeError] when the latter is
    [None]. *)
Fixpoint parse_kwonly (kwonlydefaults : option (gmap string value))
    (superfunc_arg_values : gmap string value)
    (kwonlyargs : list string) (context_kwargs : gmap string value)
  : result (gmap string value) :=
  match kwonlyargs with
  | [] => Ok context_kwargs
  | kwarg_name :: kwonlyargs' =>
      match superfunc_arg_values !! kwarg_name with
      | Some v =>
          parse_kwonly kwonlydefaults superfunc_arg_values kwonlyargs'
            (<[kwarg_name := v]> context_kwargs)
      | None =>
          match kwonlydefaults with
          | None => Raise (TypeError NoneNotContainer)
          | Some kd =>
              match kd !! kwarg_name with
              | Some d =>
                  parse_kwonly kwonlydefaults superfunc_arg_values kwonlyargs'
                    (<[kwarg_name := d]> context_kwargs)
              | None => Raise (missing_keyword kwarg_name)
              end
          end
      end
  end.

(** Lines 39 to 70: the call for [subfunc] built from its specs and the
    values bound by name. *)
Definition build_call (subfunc_specs : Inspect.FullArgSpec)
    (superfunc_arg_values : gmap string value)
  : result (list value * gmap string value) :=
  context_args ←
    parse_positional (Inspect.defaults subfunc_specs) superfunc_arg_values
      (zip (Inspect.args subfunc_specs)
           (countdown (length (Inspect.args subfunc_specs)))) [];
  context_args ←
    parse_varargs (Inspect.varargs subfunc_specs) superfunc_arg_values context_args;
  context_kwargs ← parse_varkw (Inspect.varkw subfunc_specs) superfunc_arg_values;
  context_kwargs ←
    parse_kwonly (Inspect.kwonlydefaults subfunc_specs) superfunc_arg_values
      (Inspect.kwonlyargs subfunc_specs) context_kwargs;
  Ok (context_args, context_kwargs).

Definition proxy_function (subfunc superfunc : Inspect.signature)
    (mapping : gmap string value)
    (args : list value) (kwargs : list (string * value))
  : result (list value * gmap string value) :=
  let subfunc_specs := Inspect.getfullargspec subfunc in
  superfunc_arg_values ← Inspect.getcallargs superfunc args kwargs;
  build_call subfunc_specs (apply_mapping mapping superfunc_arg_values).

(** ** Examples from the docstring and the specification *)

Import Inspect.

Definition required (name : string) : parameter := Param name None.
Definition optional (name : string) (d : value) : parameter := Param name (Some d).

(** [subfunc = lambda y, x: ...] and [superfunc = lambda x, y, z, **kwargs: ...]. *)
Definition doc_subfunc : signature :=
  Signature [required "y"; required "x"] None [] None.
Definition doc_superfunc : signature :=
  Signature [required "x"; required "y"; required "z"] None [] (Some "kwargs").

(** [subfunc(a, b)] against [superfunc(b)]. *)
Definition ab_subfunc : signature :=
  Signature [required "a"; required "b"] None [] None.
Definition b_superfunc : signature :=
  Signature [required "b"] None [] None.

(** A function without parameters. *)
Definition nullary : signature := Signature [] None [] None.

(** [def subfunc(a=1, b=2)], [def subfunc(a=1, b=2, c=3)] and the latter with
    its first two parameters exchanged, [def subfunc(b=2, a=1, c=3)]. *)
Definition two_defaults : signature :=
  Signature [optional "a" (VInt 1); optional "b" (VInt 2)] None [] None.
Definition three_defaults : signature :=
  Signature [optional "a" (VInt 1); optional "b" (VInt 2); optional "c" (VInt 3)]
    None [] None.
Definition three_defaults_swapped : signature :=
  Signature [optional "b" (VInt 2); optional "a" (VInt 1); optional "c" (VInt 3)]
    None [] None.

(** A [subfunc] whose only parameter is the keyword-only [k], without a
    default. *)
Definition kwonly_required : signature :=
  Signature [] None [required "k"] None.

(** A [subfunc] with the keyword-only [k=7] and the collector [**kw],
    against a [superfunc] that declares only [**kw]. *)
Definition kwonly_and_varkw : signature :=
  Signature [] None [optional "k" (VInt 7)] (Some "kw").
Definition varkw_only : signature :=
  Signature [] None [] (Some "kw").

(** [def subfunc(a, *rest)] against [def superfunc(a, *rest)] and against
    [def superfunc(a)]. *)
Definition a_rest : signature :=
  Signature [required "a"] (Some "rest") [] None.
Definition a_only : signature :=
  Signature [required "a"] None [] None.

(** [def f(a, b=2, *rest, k, j=5)]. *)
Definition mixed_func : signature :=
  Signature [required "a"; optional "b" (VInt 2)] (Some "rest")
    [required "k"; optional "j" (VInt 5)] None.

(** [def subfunc(a, b=2)]. *)
Definition one_default : signature :=
  Signature [required "a"; optional "b" (VInt 2)] None [] None.

(** The docstring's [subfunc] and [superfunc] with their parameters in
    another order, and the [subfunc] with the collector [**kwargs] added. *)
Definition doc_subfunc_swapped : signature :=
  Signature [required "x"; required "y"] None [] None.
Definition doc_superfunc_reordered : signature :=
  Signature [required "z"; required "y"; required "x"] None [] (Some "kwargs").
Definition doc_subfunc_kwargs : signature :=
  Signature [required "y"; required "x"] None [] (Some "kwargs").

(** [def superfunc(rest)] against a [subfunc] that declares only [*rest]:
    the name that collects in one is a plain parameter in the other. *)
Definition rest_param : signature :=
  Signature [required "rest"] None [] None.
Definition only_rest : signature :=
  Signature [] (Some "rest") [] None.

(** The two halves of [build_call] that do not involve [*varargs]: the
    values of the named positional parameters, and the keyword arguments. *)
Definition named_positionals (subfunc_specs : FullArgSpec)
    (superfunc_arg_values : gmap string value) : result (list value) :=
  parse_positional (defaults subfunc_specs) superfunc_arg_values
    (zip (args subfunc_specs) (countdown (length (args subfunc_specs)))) [].

Definition named_keywords (subfunc_specs : FullArgSpec)
    (superfunc_arg_values : gmap string value) : result (gmap string value) :=
  context_kwargs ← parse_varkw (varkw subfunc_specs) superfunc_arg_values;
  parse_kwonly (kwonlydefaults subfunc_specs) superfunc_arg_values
    (kwonlyargs subfunc_specs) context_kwargs.

(** The value a positional parameter of [subfunc] resolves to, as the loop
    computes it: the bound value, else the entry [default_num] of
    [defaults]. *)
Definition resolve_positional (defaults : option (list value))
    (superfunc_arg_values : gmap string value)
    (arg_name : string) (default_num : nat) : option value :=
  match superfunc_arg_values !! arg_name with
  | Some v => Some v
  | None => default_at defaults default_num
  end.

(** The value a keyword-only parameter resolves to: the bound value, else
    its default. *)
Definition resolve_kwonly (kwonlydefaults : option (gmap string value))
    (superfunc_arg_values : gmap string value) (kwarg_name : string)
  : option value :=
  match superfunc_arg_values !! kwarg_name with
  | Some v => Some v
  | None => kwonlydefaults ≫= (.!! kwarg_name)
  end.

(** The errors with which [getcallargs] rejects a call: the specification's
    [BindingError]. *)
Definition binding_error (e : exn) : Prop :=
  match e with
  | TypeError (UnexpectedKeyword _) | TypeError (MultipleValues _)
  | TypeError TooManyPositional | TypeError (MissingArguments _ _) => True
  | _ => False
  end.

(** The positional values of a successful result, by parameter name. *)
Definition positional_by_name (func : signature) (pos : list value)
  : list (string * value) :=
  zip (p_name <$> sig_positional func) pos.

(** ** Properties *)

(** C1. The scenario of the docstring: [subfunc(y, x)],
    [superfunc(x, y, z, **kwargs)], [mapping = {x: 1}] and the call
    [superfunc(15, 18, 22, something='something else')] give the positional
    tuple [(18, 1)] and no keyword argument. *)
Theorem docstring_scenario :
  proxy_function doc_subfunc doc_superfunc {["x" := VInt 1]}
    [VInt 15; VInt 18; VInt 22] [("something", VStr "something else")]
  = Ok ([VInt 18; VInt 1], ∅).
Proof. vm_compute. reflexivity. Qed.

(** The failure scenario of the specification: [subfunc(a, b)],
    [superfunc(b)], no override and the call [superfunc(5)]. *)
Example missing_a :
  proxy_function ab_subfunc b_superfunc ∅ [VInt 5] []
  = Raise (ValueError "Missing required positional argument: 'a'.").
Proof. vm_compute. reflexivity. Qed.

(** *** The loops depend on the bound values only through the names of
    [subfunc] *)

Section Extensionality.
Context (vals vals' : gmap string value).

Lemma parse_positional_ext defaults pairs context_args :
  (∀ p, p ∈ pairs → vals !! p.1 = vals' !! p.1) →
  parse_positional defaults vals pairs context_args
  = parse_positional defaults vals' pairs context_args.
Proof.
  revert context_args.
  induction pairs as [|[arg_name default_num] pairs IH]; intros acc Hag; [done|].
  simpl. assert (vals !! arg_name = vals' !! arg_name) as <-
    by (apply (Hag (arg_name, default_num)); left).
  assert (∀ p, p ∈ pairs → vals !! p.1 = vals' !! p.1) as Hag'
    by (intros p Hp; apply Hag; by right).
  destruct (vals !! arg_name); [by apply IH|].
  destruct (default_at defaults default_num); [by apply IH | done].
Qed.

Lemma parse_varargs_ext va context_args :
  (∀ k, va = Some k → vals !! k = vals' !! k) →
  parse_varargs va vals context_args = parse_varargs va vals' context_args.
Proof. intros Hag. destruct va as [k|]; [|done]. simpl. by rewrite (Hag k). Qed.

Lemma parse_varkw_ext vk :
  (∀ k, vk = Some k → vals !! k = vals' !! k) →
  parse_varkw vk vals = parse_varkw vk vals'.
Proof. intros Hag. destruct vk as [k|]; [|done]. simpl. by rewrite (Hag k). Qed.

Lemma parse_kwonly_ext kwonlydefaults kwonlyargs context_kwargs :
  (∀ k, k ∈ kwonlyargs → vals !! k = vals' !! k) →
  parse_kwonly kwonlydefaults vals kwonlyargs context_kwargs
  = parse_kwonly kwonlydefaults vals' kwonlyargs context_kwargs.
Proof.
  revert context_kwargs.
  induction kwonlyargs as [|k ks IH]; intros ctx Hag; [done|].
  simpl. assert (vals !! k = vals' !! k) as <- by (apply Hag; left).
  assert (∀ k', k' ∈ ks → vals !! k' = vals' !! k') as Hag'
    by (intros k' Hk'; apply Hag; by right).
  destruct (vals !! k); [by apply IH|].
  destruct kwonlydefaults as [kd|]; [|done].
  destruct (kd !! k); [by apply IH | done].
Qed.

Lemma build_call_ext (func : signature) :
  (∀ k, k ∈ names func → vals !! k = vals' !! k) →
  build_call (getfullargspec func) vals = build_call (getfullargspec func) vals'.
Proof.
  intros Hag. unfold build_call. simpl.
  assert (∀ k, k ∈ p_name <$> sig_positional func → vals !! k = vals' !! k) as H1
    by (intros k Hk; apply Hag; unfold names; apply elem_of_app; by left).
  assert (∀ k, sig_varargs func = Some k → vals !! k = vals' !! k) as H2
    by (intros k Hk; apply Hag; unfold names; rewrite Hk; simpl;
        apply elem_of_app; right; left).
  assert (∀ k, k ∈ p_name <$> sig_kwonly func → vals !! k = vals' !! k) as H3
    by (intros k Hk; apply Hag; unfold names; rewrite !elem_of_app;
        right; right; by left).
  assert (∀ k, sig_varkw func = Some k → vals !! k = vals' !! k) as H4
    by (intros k Hk; apply Hag; unfold names; rewrite Hk; simpl;
        rewrite !elem_of_app; do 3 right; left).
  rewrite (parse_positional_ext _ _ _); last first.
  { intros [k dn] Hp. apply H1. by apply elem_of_zip_l in Hp. }
  destruct (parse_positional _ vals' _ _) as [ca|]; [|done]. simpl.
  rewrite (parse_varargs_ext _ _ H2).
  destruct (parse_varargs _ vals' _) as [ca'|]; [|done]. simpl.
  rewrite (parse_varkw_ext _ H4).
  destruct (parse_varkw _ vals') as [ckw|]; [|done]. simpl.
  by rewrite (parse_kwonly_ext _ _ _ H3).
Qed.
End Extensionality.

Lemma apply_mapping_lookup mapping bound k :
  apply_mapping mapping bound !! k
  = match mapping !! k with Some o => Some o | None => bound !! k end.
Proof.
  unfold apply_mapping. case_decide as Hm.
  - subst. by rewrite lookup_empty.
  - rewrite lookup_union. destruct (mapping !! k), (bound !! k); done.
Qed.

(** C9. An entry of [mapping] whose name is not a parameter of [subfunc]
    (positional, keyword-only, [*varargs] or [**varkw]) changes nothing:
    the call returns, or raises, exactly what it does without the entry. *)
Theorem unknown_override_ignored subfunc superfunc mapping args kwargs n :
  n ∉ names subfunc →
  proxy_function subfunc superfunc mapping args kwargs
  = proxy_function subfunc superfunc (delete n mapping) args kwargs.
Proof.
  intros Hn. unfold proxy_function.
  destruct (getcallargs superfunc args kwargs) as [bound|e]; [|done]. simpl.
  apply build_call_ext. intros k Hk.
  rewrite !apply_mapping_lookup.
  rewrite lookup_delete_ne; [done|]. intros ->. done.
Qed.

Lemma unknown_override_ignored_witness :
  ("z" ∉ names doc_subfunc) ∧
  (proxy_function doc_subfunc doc_superfunc {["x" := VInt 1; "z" := VInt 0]}
     [VInt 15; VInt 18; VInt 22] []
   = proxy_function doc_subfunc doc_superfunc
       (delete "z" {["x" := VInt 1; "z" := VInt 0]})
       [VInt 15; VInt 18; VInt 22] []).
Proof.
  assert ("z" ∉ names doc_subfunc) as H.
  { apply (bool_decide_unpack _). vm_compute. exact I. }
  split; [exact H|]. apply (unknown_override_ignored _ _ _ _ _ _ H).
Defined.

(** *** Binding errors *)

Lemma bind_named_raises vk possible named (arg2value : gmap string value) e :
  (∀ k, vk = Some k → (k ∉ possible) ∧ ∃ d, arg2value !! k = Some (VDict d)) →
  bind_named vk possible named arg2value = Raise e →
  binding_error e.
Proof.
  revert arg2value.
  induction named as [|[kw v] named IH]; intros m Hvk; simpl; [done|].
  case_bool_decide as Hposs.
  - case_bool_decide; [by intros [= <-]|].
    apply IH. intros k ->. destruct (Hvk k eq_refl) as [Hk [d Hd]].
    split; [done|]. exists d. rewrite lookup_insert_ne; [done|]. by intros ->.
  - destruct vk as [k|]; [|by intros [= <-]].
    destruct (Hvk k eq_refl) as [Hk [d ->]].
    apply IH. intros ? [= <-]. split; [done|].
    eexists. by rewrite lookup_insert_eq.
Qed.

Lemma varkw_not_possible func k :
  NoDup (names func) → sig_varkw func = Some k →
  k ∉ (p_name <$> sig_positional func) ++ (p_name <$> sig_kwonly func).
Proof.
  unfold names. intros Hnd Hk. rewrite Hk in Hnd. simpl in Hnd.
  rewrite !app_assoc in Hnd. apply NoDup_app in Hnd as (_ & Hdisj & _).
  intros Hin. apply (Hdisj k); [|by left].
  rewrite !elem_of_app in *. tauto.
Qed.

(** C5. When [getcallargs] rejects [args]/[kwargs] for [superfunc], the
    same exception leaves [proxy_function], whatever [subfunc] and [mapping]
    are: the mapping is only read after the binding, so an entry for the
    missing name does not help.  For a well-formed [superfunc] the exception
    is one of the binding errors. *)
Theorem binding_error_precedes_remapping superfunc args kwargs e :
  getcallargs superfunc args kwargs = Raise e →
  (∀ subfunc mapping,
     proxy_function subfunc superfunc mapping args kwargs = Raise e)
  ∧ (well_formed superfunc → binding_error e).
Proof.
  intros Hraise. split.
  { intros subfunc mapping. unfold proxy_function. by rewrite Hraise. }
  intros [_ Hnd]. revert Hraise. unfold getcallargs. simpl.
  match goal with |- context [bind_named ?vk ?poss ?nm ?m] =>
    pose proof (bind_named_raises vk poss nm m) as Hbn;
    destruct (bind_named vk poss nm m) as [m1|e1] end.
  2:{ simpl. intros [= <-]. apply Hbn; [|done].
      intros k Hk. split; [by apply varkw_not_possible|].
      rewrite Hk. eexists. by rewrite lookup_insert_eq. }
  clear Hbn. simpl.
  destruct (bool_decide (_ < _) && _); simpl; [by intros [= <-]|].
  case_bool_decide; simpl.
  - case_bool_decide; simpl; [|by intros [= <-]].
    destruct (fill_kwonly _ _ _) as [m2 missing].
    case_bool_decide; by intros [= <-].
  - destruct (fill_kwonly _ _ _) as [m2 missing].
    case_bool_decide; by intros [= <-].
Qed.

Lemma binding_error_precedes_remapping_witness :
  getcallargs ab_subfunc [VInt 5] [] =
    Raise (TypeError (MissingArguments true ["b"])) ∧
  proxy_function ab_subfunc ab_subfunc {["b" := VInt 6]} [VInt 5] []
    = Raise (TypeError (MissingArguments true ["b"])).
Proof.
  assert (getcallargs ab_subfunc [VInt 5] [] =
            Raise (TypeError (MissingArguments true ["b"]))) as H
    by (vm_compute; reflexivity).
  split; [exact H|].
  exact (proj1 (binding_error_precedes_remapping _ _ _ _ H) ab_subfunc {["b" := VInt 6]}).
Defined.

(** *** What [getcallargs] leaves under a name it does not bind *)

Lemma bind_positional_lookup_ne args positional r :
  r ∉ args → bind_positional args positional !! r = None.
Proof.
  unfold bind_positional. intros Hr.
  assert (∀ (l : list (string * value)) (m : gmap string value),
            r ∉ l.*1 → foldl (λ m '(arg, v), <[arg := v]> m) m l !! r = m !! r) as Hfold.
  { induction l as [|[a v] l IH]; intros m Hl; simpl; [done|].
    apply not_elem_of_cons in Hl as [Hne Hl].
    rewrite IH; [|done]. apply lookup_insert_ne. by intros ->. }
  rewrite Hfold; [by rewrite lookup_empty|].
  intros Hin. apply Hr. apply list_elem_of_fmap in Hin as ([a v] & -> & Hin).
  apply elem_of_zip_l in Hin. simpl. by apply subseteq_take in Hin.
Qed.

Lemma bind_named_lookup_ne vk possible named (m m' : gmap string value) r :
  r ∉ possible → vk ≠ Some r →
  bind_named vk possible named m = Ok m' → m' !! r = m !! r.
Proof.
  intros Hr Hvk. revert m.
  induction named as [|[kw v] named IH]; intros m; simpl; [by intros [= <-]|].
  case_bool_decide as Hposs.
  - case_bool_decide; [done|]. intros Hb. rewrite (IH _ Hb).
    apply lookup_insert_ne. by intros ->.
  - destruct vk as [k|]; [|done].
    destruct (m !! k) as [[]|]; try done.
    intros Hb. rewrite (IH _ Hb). apply lookup_insert_ne. by intros ->.
Qed.

Lemma fill_defaults_lookup_ne tail dflts (m : gmap string value) r :
  r ∉ tail → fill_defaults tail dflts m !! r = m !! r.
Proof.
  unfold fill_defaults. revert dflts m.
  induction tail as [|a tail IH]; intros [|d dflts] m Hr; simpl; try done.
  apply not_elem_of_cons in Hr as [Hne Hr].
  rewrite IH; [|done].
  case_bool_decide; [done|]. by apply lookup_insert_ne.
Qed.

Lemma fill_kwonly_lookup_ne kd kwonlyargs (m : gmap string value) r :
  r ∉ kwonlyargs → (fill_kwonly kd kwonlyargs m).1 !! r = m !! r.
Proof.
  unfold fill_kwonly. generalize 0. revert m.
  induction kwonlyargs as [|k ks IH]; intros m c Hr; simpl; [done|].
  apply not_elem_of_cons in Hr as [Hne Hr].
  case_bool_decide; [by apply IH|].
  destruct (kd ≫= _); rewrite IH; try done.
  by apply lookup_insert_ne.
Qed.

Lemma getcallargs_lookup_ne func positional named bound r :
  getcallargs func positional named = Ok bound →
  r ∉ (p_name <$> sig_positional func) ++ (p_name <$> sig_kwonly func) →
  sig_varkw func ≠ Some r →
  bound !! r
  = match sig_varargs func with
    | Some va =>
        if decide (va = r)
        then Some (VTuple (drop (length (sig_positional func)) positional))
        else None
    | None => None
    end.
Proof.
  intros Hcall Hr Hvk. revert Hcall. unfold getcallargs. simpl.
  pose proof Hr as [Hr1 Hr2]%not_elem_of_app.
  match goal with |- context [bind_named ?vk ?poss ?nm ?m] =>
    pose proof (λ m', bind_named_lookup_ne vk poss nm m m' r Hr Hvk) as Hbn;
    destruct (bind_named vk poss nm m) as [m1|e1]; [|done] end.
  specialize (Hbn m1 eq_refl). simpl.
  assert (m1 !! r = match sig_varargs func with
    | Some va =>
        if decide (va = r)
        then Some (VTuple (drop (length (sig_positional func)) positional))
        else None
    | None => None
    end) as Hm1.
  { rewrite Hbn.
    assert (bind_positional (p_name <$> sig_positional func) positional !! r = None)
      as Hbp by (by apply bind_positional_lookup_ne).
    assert (∀ m : gmap string value,
              match sig_varkw func with
              | Some vk => <[vk := VDict []]> m
              | None => m
              end !! r = m !! r) as ->.
    { intros m. destruct (sig_varkw func) as [vk|]; [|done].
      apply lookup_insert_ne. by intros ->. }
    destruct (sig_varargs func) as [va|]; [|done].
    rewrite lookup_insert. case_decide; [|done].
    do 2 f_equal. rewrite length_fmap.
    destruct (decide (length positional <= length (sig_positional func))%nat).
    - rewrite Nat.min_l by done. rewrite !drop_ge; [done|lia|lia].
    - by rewrite Nat.min_r by lia. }
  clear Hbn. rewrite <- Hm1.
  destruct (bool_decide (_ < _) && _); simpl; [done|].
  match goal with |- context [fill_kwonly ?kd ?ks] =>
    pose proof (λ m, fill_kwonly_lookup_ne kd ks m r) as Hfk end.
  case_bool_decide; simpl.
  - case_bool_decide; simpl; [|done].
    match goal with |- context [fill_kwonly _ _ ?m] =>
      specialize (Hfk m); destruct (fill_kwonly _ _ m) as [m2 missing] end.
    case_bool_decide; [done|]. intros [= <-]. simpl in Hfk.
    rewrite Hfk by done. apply fill_defaults_lookup_ne.
    intros Hin. by apply subseteq_drop in Hin.
  - match goal with |- context [fill_kwonly _ _ ?m] =>
      specialize (Hfk m); destruct (fill_kwonly _ _ m) as [m2 missing] end.
    case_bool_decide; [done|]. intros [= <-]. simpl in Hfk.
    by rewrite Hfk.
Qed.

(** *** The shape of [build_call] *)

Lemma build_call_eq spec vals :
  build_call spec vals
  = (named ← named_positionals spec vals;
     context_args ← parse_varargs (varargs spec) vals named;
     context_kwargs ← named_keywords spec vals;
     Ok (context_args, context_kwargs)).
Proof.
  unfold build_call, named_positionals, named_keywords.
  destruct (parse_positional _ _ _ _); simpl; [|done].
  destruct (parse_varargs _ _ _); simpl; [|done].
  by destruct (parse_varkw _ _).
Qed.

Lemma parse_positional_length defaults vals pairs context_args out :
  parse_positional defaults vals pairs context_args = Ok out →
  length out = length context_args + length pairs.
Proof.
  revert context_args.
  induction pairs as [|[arg_name default_num] pairs IH]; intros acc; simpl.
  - intros [= <-]. lia.
  - destruct (vals !! arg_name).
    + intros Hp%IH. rewrite length_app in Hp. simpl in Hp. lia.
    + destruct (default_at defaults default_num); [|done].
      intros Hp%IH. rewrite length_app in Hp. simpl in Hp. lia.
Qed.

Lemma countdown_length n : length (countdown n) = n.
Proof. unfold countdown. by rewrite length_reverse, length_seq. Qed.

Lemma named_positionals_length (func : signature) vals named :
  named_positionals (getfullargspec func) vals = Ok named →
  length named = length (sig_positional func).
Proof.
  unfold named_positionals. intros Hp%parse_positional_length.
  rewrite Hp. simpl.
  rewrite length_zip_with, countdown_length, length_fmap. lia.
Qed.

(** C10. When [mapping] gives the [*varargs] name of [subfunc] a sequence,
    its items close the positional output, after the values of the named
    parameters, whatever [superfunc] declares: the call returns the named
    values followed by the items (and the keyword arguments) whenever the
    named values and the keyword arguments can be built, and raises what they
    raise otherwise. *)
Theorem override_fills_varargs subfunc superfunc mapping args kwargs bound r v items :
  sig_varargs subfunc = Some r →
  mapping !! r = Some v →
  iterate v = Some items →
  getcallargs superfunc args kwargs = Ok bound →
  proxy_function subfunc superfunc mapping args kwargs
  = (named ← named_positionals (getfullargspec subfunc) (apply_mapping mapping bound);
     context_kwargs ← named_keywords (getfullargspec subfunc) (apply_mapping mapping bound);
     Ok (named ++ items, context_kwargs))
  ∧ ∀ named,
      named_positionals (getfullargspec subfunc) (apply_mapping mapping bound) = Ok named →
      length named = length (sig_positional subfunc).
Proof.
  intros Hva Hmap Hit Hcall. split; [|apply named_positionals_length].
  unfold proxy_function. rewrite Hcall. simpl.
  rewrite build_call_eq.
  destruct (named_positionals _ _) as [named|]; simpl; [|done].
  rewrite Hva. simpl. rewrite apply_mapping_lookup, Hmap, Hit. done.
Qed.

Lemma override_fills_varargs_witness :
  proxy_function a_rest a_only {["rest" := VTuple [VInt 7; VInt 8]]} [VInt 1] []
  = Ok ([VInt 1; VInt 7; VInt 8], ∅).
Proof.
  assert (getcallargs a_only [VInt 1] [] = Ok {["a" := VInt 1]}) as Hcall
    by (vm_compute; reflexivity).
  pose proof (proj1 (override_fills_varargs a_rest a_only
    {["rest" := VTuple [VInt 7; VInt 8]]} [VInt 1] [] _ "rest"
    (VTuple [VInt 7; VInt 8]) [VInt 7; VInt 8]
    eq_refl eq_refl eq_refl Hcall)) as H.
  rewrite H. vm_compute. reflexivity.
Defined.

(** C6, amended.  When [superfunc] and [subfunc] both declare [*r] and
    [mapping] has no entry for [r], the positional arguments of the call
    beyond the declared parameters of [superfunc] close the positional output
    in their order, after the values of the named parameters of [subfunc].
    When [r] has no value at all among the bound values, [*r] adds nothing
    and raises nothing: the call behaves as for [subfunc] without [*r], and a
    returned positional output holds the named parameters only.  Without the
    condition on [mapping] the first half fails, see
    [rest_positional_overridden]: an entry for [r] replaces what the call
    collected. *)
Theorem rest_positional_pass_through subfunc superfunc mapping args kwargs bound r :
  sig_varargs subfunc = Some r →
  getcallargs superfunc args kwargs = Ok bound →
  (well_formed superfunc → sig_varargs superfunc = Some r → mapping !! r = None →
   proxy_function subfunc superfunc mapping args kwargs
   = (named ← named_positionals (getfullargspec subfunc) (apply_mapping mapping bound);
      context_kwargs ← named_keywords (getfullargspec subfunc) (apply_mapping mapping bound);
      Ok (named ++ drop (length (sig_positional superfunc)) args, context_kwargs))
   ∧ ∀ named,
       named_positionals (getfullargspec subfunc) (apply_mapping mapping bound) = Ok named →
       length named = length (sig_positional subfunc))
  ∧ (apply_mapping mapping bound !! r = None →
     proxy_function subfunc superfunc mapping args kwargs
     = (named ← named_positionals (getfullargspec subfunc) (apply_mapping mapping bound);
        context_kwargs ← named_keywords (getfullargspec subfunc) (apply_mapping mapping bound);
        Ok (named, context_kwargs))
     ∧ ∀ pos kw,
         proxy_function subfunc superfunc mapping args kwargs = Ok (pos, kw) →
         length pos = length (sig_positional subfunc)).
Proof.
  intros Hva Hcall.
  assert (proxy_function subfunc superfunc mapping args kwargs
          = build_call (getfullargspec subfunc) (apply_mapping mapping bound)) as Hpf
    by (unfold proxy_function; by rewrite Hcall).
  split.
  - intros [_ Hnd] Hsuper Hmap. split; [|apply named_positionals_length].
    rewrite Hpf, build_call_eq.
    destruct (named_positionals _ _) as [named|]; simpl; [|done].
    rewrite Hva. simpl. rewrite apply_mapping_lookup, Hmap.
    rewrite (getcallargs_lookup_ne _ _ _ _ r Hcall), Hsuper.
    + by rewrite decide_True.
    + unfold names in Hnd. rewrite Hsuper in Hnd. simpl in Hnd.
      apply NoDup_app in Hnd as (_ & Hd1 & Hnd).
      apply NoDup_cons in Hnd as [Hd2 _].
      apply not_elem_of_app. split.
      * intros Hin. apply (Hd1 _ Hin). by left.
      * intros Hin. apply Hd2. apply elem_of_app. by left.
    + intros Hvk. unfold names in Hnd. rewrite Hsuper, Hvk in Hnd. simpl in Hnd.
      apply NoDup_app in Hnd as (_ & _ & Hnd).
      apply NoDup_cons in Hnd as [Hd2 _].
      apply Hd2. apply elem_of_app. right. by left.
  - intros Hnone.
    assert (proxy_function subfunc superfunc mapping args kwargs
     = (named ← named_positionals (getfullargspec subfunc) (apply_mapping mapping bound);
        context_kwargs ← named_keywords (getfullargspec subfunc) (apply_mapping mapping bound);
        Ok (named, context_kwargs))) as Heq.
    { rewrite Hpf, build_call_eq.
      destruct (named_positionals _ _) as [named|]; simpl; [|done].
      rewrite Hva. simpl. by rewrite Hnone. }
    split; [done|]. intros pos kw. rewrite Heq.
    destruct (named_positionals _ _) as [named|] eqn:Hnamed; simpl; [|done].
    destruct (named_keywords _ _); simpl; [|done].
    intros [= <- <-]. by apply named_positionals_length in Hnamed.
Qed.

Lemma rest_positional_pass_through_witness :
  proxy_function a_rest a_rest ∅ [VInt 1; VInt 2; VInt 3] []
  = Ok ([VInt 1; VInt 2; VInt 3], ∅)
  ∧ proxy_function a_rest a_only ∅ [VInt 1] [] = Ok ([VInt 1], ∅).
Proof.
  assert (well_formed a_rest) as Hwf.
  { split; [reflexivity|]. apply (bool_decide_unpack _). vm_compute. exact I. }
  assert (getcallargs a_rest [VInt 1; VInt 2; VInt 3] []
          = Ok {["a" := VInt 1; "rest" := VTuple [VInt 2; VInt 3]]}) as Hcall
    by (vm_compute; reflexivity).
  assert (getcallargs a_only [VInt 1] [] = Ok {["a" := VInt 1]}) as Hcall'
    by (vm_compute; reflexivity).
  assert (apply_mapping ∅ {["a" := VInt 1]} !! "rest" = None) as Hnone
    by (vm_compute; reflexivity).
  split.
  - pose proof (proj1 (rest_positional_pass_through a_rest a_rest ∅
      [VInt 1; VInt 2; VInt 3] [] _ "rest" eq_refl Hcall)) as H.
    destruct (H Hwf eq_refl eq_refl) as [-> _]. vm_compute. reflexivity.
  - pose proof (proj2 (rest_positional_pass_through a_rest a_only ∅
      [VInt 1] [] _ "rest" eq_refl Hcall')) as H.
    destruct (H Hnone) as [-> _]. vm_compute. reflexivity.
Defined.

(** C6 as stated, without a condition on [mapping], does not hold.  For
    [def f(a, *rest)] proxied onto itself with [mapping = {rest: (9,)}] and
    the call [f(1, 2, 3)], the call collects [(2, 3)] under [rest], yet the
    result is [(1, 9)]: its tail is the value of [mapping], and no result
    ends with the collected [2, 3]. *)
Lemma rest_positional_overridden :
  sig_varargs a_rest = Some "rest"
  ∧ getcallargs a_rest [VInt 1; VInt 2; VInt 3] []
    = Ok {["a" := VInt 1; "rest" := VTuple [VInt 2; VInt 3]]}
  ∧ drop (length (sig_positional a_rest)) [VInt 1; VInt 2; VInt 3]
    = [VInt 2; VInt 3]
  ∧ proxy_function a_rest a_rest {["rest" := VTuple [VInt 9]]}
      [VInt 1; VInt 2; VInt 3] []
    = Ok ([VInt 1; VInt 9], ∅)
  ∧ ¬ ∃ named kw,
        proxy_function a_rest a_rest {["rest" := VTuple [VInt 9]]}
          [VInt 1; VInt 2; VInt 3] []
        = Ok (named ++ [VInt 2; VInt 3], kw).
Proof.
  assert (proxy_function a_rest a_rest {["rest" := VTuple [VInt 9]]}
            [VInt 1; VInt 2; VInt 3] []
          = Ok ([VInt 1; VInt 9], ∅)) as Hrun by (vm_compute; reflexivity).
  split_and!; [reflexivity | vm_compute; reflexivity | reflexivity | exact Hrun |].
  intros (named & kw & Hok). rewrite Hrun in Hok. injection Hok as Hpos _.
  apply (f_equal (λ l : list value, last l)) in Hpos.
  change (named ++ [VInt 2; VInt 3]) with (named ++ [VInt 2] ++ [VInt 3]) in Hpos.
  rewrite app_assoc, last_snoc in Hpos. simpl in Hpos. discriminate.
Qed.

(** *** What a successful loop returns *)

Lemma parse_positional_cons defaults vals arg_name default_num pairs context_args :
  parse_positional defaults vals ((arg_name, default_num) :: pairs) context_args
  = match resolve_positional defaults vals arg_name default_num with
    | Some v => parse_positional defaults vals pairs (context_args ++ [v])
    | None => Raise (missing_positional arg_name)
    end.
Proof.
  simpl. unfold resolve_positional. destruct (vals !! arg_name); [done|].
  by destruct (default_at defaults default_num).
Qed.

Lemma parse_positional_Ok defaults vals pairs context_args out :
  parse_positional defaults vals pairs context_args = Ok out ↔
  ∃ vs, out = context_args ++ vs ∧
        Forall2 (λ p v, resolve_positional defaults vals p.1 p.2 = Some v) pairs vs.
Proof.
  revert context_args.
  induction pairs as [|[arg_name default_num] pairs IH]; intros acc.
  - simpl. split.
    + intros [= <-]. exists []. by rewrite app_nil_r.
    + intros (vs & -> & ->%Forall2_nil_inv_l). by rewrite app_nil_r.
  - rewrite parse_positional_cons.
    destruct (resolve_positional defaults vals arg_name default_num) as [v|] eqn:Hres.
    + rewrite IH. split.
      * intros (vs & -> & Hall). exists (v :: vs). rewrite <- app_assoc.
        split; [done|]. by constructor.
      * intros (vs & -> & Hall).
        apply Forall2_cons_inv_l in Hall as (v' & vs' & Hv & Hall & ->).
        simpl in Hv. rewrite Hres in Hv. injection Hv as <-.
        exists vs'. by rewrite <- app_assoc.
    + split; [done|]. intros (vs & _ & Hall).
      apply Forall2_cons_inv_l in Hall as (v' & vs' & Hv & _).
      simpl in Hv. congruence.
Qed.

Lemma named_positionals_lookup spec vals named i arg_name :
  named_positionals spec vals = Ok named →
  args spec !! i = Some arg_name →
  named !! i
  = resolve_positional (defaults spec) vals arg_name (length (args spec) - 1 - i)
  ∧ is_Some (named !! i).
Proof.
  unfold named_positionals. intros (vs & -> & Hall)%parse_positional_Ok Hi.
  simpl.
  assert (countdown (length (args spec)) !! i = Some (length (args spec) - 1 - i))
    as Hcd.
  { unfold countdown. apply lookup_lt_Some in Hi as Hlt.
    rewrite reverse_lookup by (rewrite length_seq; lia).
    rewrite length_seq, lookup_seq_lt by lia. f_equal. lia. }
  assert (zip (args spec) (countdown (length (args spec))) !! i
          = Some (arg_name, length (args spec) - 1 - i)) as Hz.
  { rewrite lookup_zip_with, Hi. simpl. by rewrite Hcd. }
  destruct (Forall2_lookup_l _ _ _ _ _ Hall Hz) as (v & Hv & Hres).
  simpl in Hres. rewrite Hv, Hres. eauto.
Qed.

Lemma parse_kwonly_Ok kd vals kwonlyargs context_kwargs (kw : gmap string value) :
  parse_kwonly kd vals kwonlyargs context_kwargs = Ok kw →
  (∀ k, k ∈ kwonlyargs → kw !! k = resolve_kwonly kd vals k ∧ is_Some (kw !! k))
  ∧ (∀ k, k ∉ kwonlyargs → kw !! k = context_kwargs !! k).
Proof.
  revert context_kwargs.
  induction kwonlyargs as [|k0 ks IH]; intros ctx; simpl.
  { intros [= <-]. split; [|done]. by intros k ?%elem_of_nil. }
  assert (∀ v0, resolve_kwonly kd vals k0 = Some v0 →
            parse_kwonly kd vals ks (<[k0 := v0]> ctx) = Ok kw →
            (∀ k, k ∈ k0 :: ks → kw !! k = resolve_kwonly kd vals k ∧ is_Some (kw !! k))
            ∧ (∀ k, k ∉ k0 :: ks → kw !! k = ctx !! k)) as Hstep.
  { intros v0 Hv0 [Hin Hout]%IH. split.
    - intros k Hk. destruct (decide (k ∈ ks)) as [|Hks]; [by apply Hin|].
      apply elem_of_cons in Hk as [->|]; [|done].
      rewrite (Hout _ Hks), lookup_insert_eq, Hv0. eauto.
    - intros k [Hne Hks]%not_elem_of_cons.
      rewrite (Hout _ Hks). by apply lookup_insert_ne. }
  unfold resolve_kwonly in Hstep at 1.
  destruct (vals !! k0) as [v|]; [by apply Hstep|].
  destruct kd as [kd|]; [|done]. simpl in Hstep.
  destruct (kd !! k0) as [d|]; [by apply Hstep | done].
Qed.

Lemma named_keywords_lookup spec vals (kw : gmap string value) k :
  named_keywords spec vals = Ok kw →
  k ∈ kwonlyargs spec →
  kw !! k = resolve_kwonly (kwonlydefaults spec) vals k ∧ is_Some (kw !! k).
Proof.
  unfold named_keywords.
  destruct (parse_varkw _ _) as [ctx|]; simpl; [|done].
  intros [Hin _]%parse_kwonly_Ok. apply Hin.
Qed.

Lemma proxy_function_Ok subfunc superfunc mapping args kwargs bound pos kw :
  getcallargs superfunc args kwargs = Ok bound →
  proxy_function subfunc superfunc mapping args kwargs = Ok (pos, kw) →
  ∃ named,
    named_positionals (getfullargspec subfunc) (apply_mapping mapping bound) = Ok named
    ∧ parse_varargs (sig_varargs subfunc) (apply_mapping mapping bound) named = Ok pos
    ∧ named_keywords (getfullargspec subfunc) (apply_mapping mapping bound) = Ok kw.
Proof.
  intros Hcall. unfold proxy_function. rewrite Hcall. simpl.
  rewrite build_call_eq.
  destruct (named_positionals _ _) as [named|]; simpl; [|done].
  destruct (parse_varargs _ _ _) as [ca|] eqn:Hva; simpl; [|done].
  destruct (named_keywords _ _) as [ckw|]; simpl; [|done].
  intros [= <- <-]. eauto.
Qed.

Lemma parse_varargs_Ok va vals named pos :
  parse_varargs va vals named = Ok pos →
  pos = named ++ default [] (r ← va; v ← vals !! r; iterate v).
Proof.
  unfold parse_varargs. destruct va as [r|]; simpl.
  - destruct (vals !! r) as [v|]; simpl.
    + destruct (iterate v); [|done]. by intros [= <-].
    + intros [= <-]. by rewrite app_nil_r.
  - intros [= <-]. by rewrite app_nil_r.
Qed.

(** *** Overrides *)

(** C4. A name [n] that the call binds and that [mapping] also gives is
    read as [mapping[n]] everywhere: the values the call for [subfunc] is
    built from hold [mapping[n]] under [n]; the result is the same whatever
    the call had bound to [n]; and in a returned result the positional slot
    of [n], the keyword [n], the tail unpacked from [*n] and the keywords
    merged from [**n] all come from [mapping[n]]. *)
Theorem overrides_win subfunc superfunc mapping args kwargs bound n o :
  getcallargs superfunc args kwargs = Ok bound →
  is_Some (bound !! n) →
  mapping !! n = Some o →
  apply_mapping mapping bound !! n = Some o
  ∧ (∀ bound' : gmap string value,
       (∀ k, k ≠ n → bound' !! k = bound !! k) →
       build_call (getfullargspec subfunc) (apply_mapping mapping bound')
       = proxy_function subfunc superfunc mapping args kwargs)
  ∧ (∀ pos kw,
       proxy_function subfunc superfunc mapping args kwargs = Ok (pos, kw) →
       (∀ i, (p_name <$> sig_positional subfunc) !! i = Some n → pos !! i = Some o)
       ∧ (n ∈ p_name <$> sig_kwonly subfunc → kw !! n = Some o)
       ∧ (sig_varargs subfunc = Some n →
          ∃ items, iterate o = Some items
                   ∧ drop (length (sig_positional subfunc)) pos = items)
       ∧ (sig_varkw subfunc = Some n →
          ∃ d : gmap string value,
            dict_of o = Ok d
            ∧ ∀ k, k ∉ p_name <$> sig_kwonly subfunc → kw !! k = d !! k)).
Proof.
  intros Hcall Hbound Hmap.
  assert (apply_mapping mapping bound !! n = Some o) as Hval
    by (by rewrite apply_mapping_lookup, Hmap).
  split; [done|]. split.
  { intros bound' Hagree. unfold proxy_function. rewrite Hcall. simpl.
    f_equal. apply map_eq. intros k. rewrite !apply_mapping_lookup.
    destruct (decide (k = n)) as [->|Hne]; [by rewrite Hmap|].
    by rewrite (Hagree k Hne). }
  intros pos kw Hok.
  destruct (proxy_function_Ok _ _ _ _ _ _ _ _ Hcall Hok) as (named & Hnamed & Hva & Hkw).
  apply parse_varargs_Ok in Hva.
  pose proof (named_positionals_length _ _ _ Hnamed) as Hlen.
  split_and!.
  - intros i Hi.
    destruct (named_positionals_lookup _ _ _ i n Hnamed Hi) as [Hres [v Hv]].
    unfold resolve_positional in Hres. rewrite Hval in Hres.
    rewrite Hva, lookup_app_l; [done|]. by apply lookup_lt_Some in Hv.
  - intros Hin.
    destruct (named_keywords_lookup _ _ _ n Hkw Hin) as [Hres _].
    unfold resolve_kwonly in Hres. by rewrite Hval in Hres.
  - intros Hn. rewrite Hn in Hva. simpl in Hva. rewrite Hval in Hva. simpl in Hva.
    revert Hok. unfold proxy_function. rewrite Hcall. simpl.
    rewrite build_call_eq, Hnamed. simpl. rewrite Hn. simpl. rewrite Hval.
    destruct (iterate o) as [items|]; [|done]. intros _.
    exists items. split; [done|]. simpl in Hva.
    by rewrite Hva, <- Hlen, drop_app_length.
  - intros Hn. revert Hkw. unfold named_keywords. simpl. rewrite Hn. simpl.
    rewrite Hval. destruct (dict_of o) as [d|]; simpl; [|done].
    intros [_ Hout]%parse_kwonly_Ok. exists d. split; [done|]. apply Hout.
Qed.

Lemma overrides_win_witness :
  apply_mapping {["x" := VInt 1]}
    {["x" := VInt 15; "y" := VInt 18; "z" := VInt 22;
      "kwargs" := VDict [(KStr "something", VStr "something else")]]} !! "x"
  = Some (VInt 1)
  ∧ ([VInt 18; VInt 1] : list value) !! 1 = Some (VInt 1).
Proof.
  assert (getcallargs doc_superfunc [VInt 15; VInt 18; VInt 22]
            [("something", VStr "something else")]
          = Ok {["x" := VInt 15; "y" := VInt 18; "z" := VInt 22;
                 "kwargs" := VDict [(KStr "something", VStr "something else")]]})
    as Hcall by (vm_compute; reflexivity).
  assert (proxy_function doc_subfunc doc_superfunc {["x" := VInt 1]}
            [VInt 15; VInt 18; VInt 22] [("something", VStr "something else")]
          = Ok ([VInt 18; VInt 1], ∅)) as Hok by (vm_compute; reflexivity).
  pose proof (overrides_win doc_subfunc doc_superfunc {["x" := VInt 1]}
    [VInt 15; VInt 18; VInt 22] [("something", VStr "something else")]
    _ "x" (VInt 1) Hcall (ex_intro _ (VInt 15) eq_refl) eq_refl)
    as (Hval & _ & Hocc).
  split; [exact Hval|].
  destruct (Hocc _ _ Hok) as (Hpos & _). exact (Hpos 1 eq_refl).
Defined.

(** *** Keyword-only parameters against the merged [**varkw] *)

(** C8. When [subfunc] declares [**vk] and the keyword-only parameter [k],
    and the value bound to [vk] is a dictionary that has the key [k], a
    returned keyword mapping holds under [k] what the parameter resolves to
    (its bound value, else its default), whatever the dictionary held for
    [k]: the keyword-only loop runs after the merge and overwrites. *)
Theorem kwonly_beats_varkw subfunc superfunc mapping args kwargs bound
    vk entries k x pos kw :
  getcallargs superfunc args kwargs = Ok bound →
  sig_varkw subfunc = Some vk →
  apply_mapping mapping bound !! vk = Some (VDict entries) →
  (KStr k, x) ∈ entries →
  k ∈ p_name <$> sig_kwonly subfunc →
  proxy_function subfunc superfunc mapping args kwargs = Ok (pos, kw) →
  kw !! k
  = resolve_kwonly (kwonlydefaults (getfullargspec subfunc))
      (apply_mapping mapping bound) k
  ∧ is_Some (kw !! k).
Proof.
  intros Hcall _ _ _ Hk Hok.
  destruct (proxy_function_Ok _ _ _ _ _ _ _ _ Hcall Hok) as (named & _ & _ & Hkw).
  by apply (named_keywords_lookup _ _ _ k Hkw).
Qed.

Lemma kwonly_beats_varkw_witness :
  proxy_function kwonly_and_varkw varkw_only ∅ [] [("k", VInt 5)]
  = Ok ([], {["k" := VInt 7]})
  ∧ ({["k" := VInt 7]} : gmap string value) !! "k"
    = resolve_kwonly (kwonlydefaults (getfullargspec kwonly_and_varkw))
        (apply_mapping ∅ {["kw" := VDict [(KStr "k", VInt 5)]]}) "k".
Proof.
  assert (getcallargs varkw_only [] [("k", VInt 5)]
          = Ok {["kw" := VDict [(KStr "k", VInt 5)]]}) as Hcall
    by (vm_compute; reflexivity).
  assert (proxy_function kwonly_and_varkw varkw_only ∅ [] [("k", VInt 5)]
          = Ok ([], {["k" := VInt 7]})) as Hok by (vm_compute; reflexivity).
  split; [exact Hok|].
  assert ((KStr "k", VInt 5) ∈ [(KStr "k", VInt 5)]) as Hin by left.
  assert ("k" ∈ p_name <$> sig_kwonly kwonly_and_varkw) as Hk by left.
  assert (apply_mapping ∅ {["kw" := VDict [(KStr "k", VInt 5)]]} !! "kw"
          = Some (VDict [(KStr "k", VInt 5)])) as Hvk by (vm_compute; reflexivity).
  exact (proj1 (kwonly_beats_varkw kwonly_and_varkw varkw_only ∅ [] [("k", VInt 5)]
    _ "kw" [(KStr "k", VInt 5)] "k" (VInt 5) [] {["k" := VInt 7]}
    Hcall eq_refl Hvk Hin Hk Hok)).
Defined.

(** *** Defaults of the positional parameters *)

(** C2. With [def subfunc(a=1, b=2)] and a call that binds neither name,
    [a] receives the default declared for [b] and [b] the one declared for
    [a]: the positional output is [(2, 1)], where each parameter taking its
    own default would give [(1, 2)].  The index [default_num] counts from the
    end of [args] but is used from the front of [defaults]. *)
Theorem defaults_exchanged :
  proxy_function two_defaults nullary ∅ [] [] = Ok ([VInt 2; VInt 1], ∅)
  ∧ (p_default <$> sig_positional two_defaults) = [Some (VInt 1); Some (VInt 2)].
Proof. split; vm_compute; reflexivity. Qed.

(** C7. Exchanging the first two parameters of
    [def subfunc(a=1, b=2, c=3)], each keeping its default, changes the value
    that reaches a name when the call binds none of them: [a] receives [3] in
    the first order and [1] in the second, [b] receives [2] and then [3],
    [c] receives [1] and then [2]. *)
Theorem order_changes_defaults :
  (positional_by_name three_defaults <$>
     (fst <$> proxy_function three_defaults nullary ∅ [] []))
  = Ok [("a", VInt 3); ("b", VInt 2); ("c", VInt 1)]
  ∧ (positional_by_name three_defaults_swapped <$>
       (fst <$> proxy_function three_defaults_swapped nullary ∅ [] []))
    = Ok [("b", VInt 3); ("a", VInt 1); ("c", VInt 2)]
  ∧ sig_positional three_defaults_swapped ≡ₚ sig_positional three_defaults.
Proof.
  split_and!; [vm_compute; reflexivity | vm_compute; reflexivity |].
  apply perm_swap.
Qed.

(** *** Missing arguments *)

(** C3. For a [subfunc] whose only parameter is the keyword-only [k],
    without a default, and a call that binds nothing, the function raises a
    [TypeError], not the [ValueError] that names [k]: [kwonlydefaults] is
    [None] for such a function and the membership test on it fails. *)
Theorem missing_kwonly_without_defaults :
  kwonlydefaults (getfullargspec kwonly_required) = None
  ∧ proxy_function kwonly_required nullary ∅ [] []
    = Raise (TypeError NoneNotContainer)
  ∧ proxy_function kwonly_required nullary ∅ [] [] ≠ Raise (missing_keyword "k").
Proof. split_and!; [reflexivity | vm_compute; reflexivity | vm_compute; discriminate]. Qed.

(** *** Which default the positional loop reads *)

Lemma default_at_getfullargspec func default_num :
  default_at (defaults (getfullargspec func)) default_num
  = omap p_default (sig_positional func) !! default_num.
Proof.
  unfold default_at. simpl. case_decide as Hnil.
  - by rewrite Hnil.
  - case_bool_decide; [done|]. symmetry. apply lookup_ge_None. lia.
Qed.

Lemma defaults_trail_split ps :
  defaults_trail ps = true →
  ∃ req opt, ps = req ++ opt
             ∧ Forall (λ p, p_default p = None) req
             ∧ Forall (λ p, is_Some (p_default p)) opt.
Proof.
  induction ps as [|p ps IH]; simpl.
  - intros _. by exists [], [].
  - destruct (p_default p) eqn:Hp.
    + intros Hall. exists [], (p :: ps). split_and!; [done..|].
      constructor; [by rewrite Hp|].
      apply Forall_forall. intros q Hq%list_elem_of_In.
      rewrite forallb_forall in Hall.
      apply (bool_decide_unpack _). rewrite (Hall q Hq). exact I.
    + intros (req & opt & -> & Hreq & Hopt)%IH.
      exists (p :: req), opt. split_and!; [done| |done]. by constructor.
Qed.

Lemma omap_defaults_none req :
  Forall (λ p, p_default p = None) req → omap p_default req = [].
Proof.
  induction 1 as [|p req Hp _ IH]; [done|].
  change (omap p_default (p :: req))
    with (match p_default p with
          | Some y => y :: omap p_default req
          | None => omap p_default req
          end).
  by rewrite Hp.
Qed.

Lemma omap_defaults_some opt :
  Forall (λ p, is_Some (p_default p)) opt →
  length (omap p_default opt) = length opt
  ∧ ∀ j, omap p_default opt !! j = opt !! j ≫= p_default.
Proof.
  induction 1 as [|p opt [d Hp] _ [IHlen IH]]; [done|].
  change (omap p_default (p :: opt))
    with (match p_default p with
          | Some y => y :: omap p_default opt
          | None => omap p_default opt
          end).
  rewrite Hp. split; [simpl; by rewrite IHlen|].
  intros [|j]; [simpl; by rewrite Hp | apply IH].
Qed.

(** The default the loop reads, in general.  For a [subfunc] whose
    defaults trail, the loop reads for the parameter at position [i] of [n],
    [d] of which have defaults: nothing when the parameter has no default, and
    otherwise the default declared at position [n - d + (n - 1 - i)], the
    mirror image of [i] within the parameters that have defaults. *)
Lemma positional_default_mirrored func i p :
  defaults_trail (sig_positional func) = true →
  sig_positional func !! i = Some p →
  default_at (defaults (getfullargspec func))
    (length (sig_positional func) - 1 - i)
  = match p_default p with
    | Some _ =>
        sig_positional func
          !! (length (sig_positional func)
              - length (omap p_default (sig_positional func))
              + (length (sig_positional func) - 1 - i))
          ≫= p_default
    | None => None
    end.
Proof.
  intros (req & opt & Heq & Hreq & Hopt)%defaults_trail_split Hi.
  rewrite default_at_getfullargspec, Heq in *.
  rewrite omap_app, (omap_defaults_none _ Hreq). simpl.
  destruct (omap_defaults_some _ Hopt) as [Hlen Hlook].
  rewrite Hlen, Hlook, length_app.
  apply lookup_lt_Some in Hi as Hlt. rewrite length_app in Hlt.
  destruct (decide (i < length req)) as [Hlo|Hhi].
  - rewrite lookup_app_l in Hi by done.
    rewrite Forall_lookup in Hreq. rewrite (Hreq _ _ Hi).
    rewrite lookup_ge_None_2; [done|lia].
  - rewrite lookup_app_r in Hi by lia.
    rewrite Forall_lookup in Hopt. destruct (Hopt _ _ Hi) as [dflt ->].
    rewrite lookup_app_r by lia. do 2 f_equal. lia.
Qed.

(** With a single default the mirror image is the parameter itself. *)
Lemma single_default_is_own func i p :
  defaults_trail (sig_positional func) = true →
  length (omap p_default (sig_positional func)) = 1 →
  sig_positional func !! i = Some p →
  default_at (defaults (getfullargspec func))
    (length (sig_positional func) - 1 - i)
  = p_default p.
Proof.
  intros Htrail Hone Hi.
  rewrite (positional_default_mirrored _ _ _ Htrail Hi), Hone.
  destruct (p_default p) as [dflt|] eqn:Hp; [|done].
  apply defaults_trail_split in Htrail as (req & opt & Heq & Hreq & Hopt).
  rewrite Heq in *. rewrite omap_app, (omap_defaults_none _ Hreq) in Hone.
  simpl in Hone. destruct (omap_defaults_some _ Hopt) as [Hlen _].
  rewrite Hlen in Hone. rewrite length_app, Hone.
  apply lookup_lt_Some in Hi as Hlt. rewrite length_app in Hlt.
  destruct (decide (i < length req)) as [Hlo|Hhi].
  - rewrite lookup_app_l in Hi by done.
    rewrite Forall_lookup in Hreq. rewrite (Hreq _ _ Hi) in Hp. done.
  - replace (length req + 1 - 1 + (length req + 1 - 1 - i)) with i by lia.
    by rewrite Hi.
Qed.

(** *** The first parameter that cannot be resolved *)

Lemma parse_positional_first_missing defaults vals pairs context_args i arg_name default_num :
  pairs !! i = Some (arg_name, default_num) →
  resolve_positional defaults vals arg_name default_num = None →
  (∀ j p, j < i → pairs !! j = Some p →
          is_Some (resolve_positional defaults vals p.1 p.2)) →
  parse_positional defaults vals pairs context_args
  = Raise (missing_positional arg_name).
Proof.
  revert i context_args.
  induction pairs as [|[name0 dn0] pairs IH]; intros i acc Hi Hnone Hbefore; [done|].
  rewrite parse_positional_cons. destruct i as [|i].
  - injection Hi as -> ->. by rewrite Hnone.
  - destruct (Hbefore 0 (name0, dn0)) as [v Hv]; [lia|done|].
    simpl in Hv. rewrite Hv.
    apply (IH i); [done..|].
    intros j p Hj Hp. apply (Hbefore (S j)); [lia|done].
Qed.

Lemma parse_kwonly_first_missing kd vals kwonlyargs context_kwargs i k :
  kwonlyargs !! i = Some k →
  resolve_kwonly kd vals k = None →
  (∀ j k', j < i → kwonlyargs !! j = Some k' →
           is_Some (resolve_kwonly kd vals k')) →
  parse_kwonly kd vals kwonlyargs context_kwargs
  = Raise (match kd with
           | Some _ => missing_keyword k
           | None => TypeError NoneNotContainer
           end).
Proof.
  revert i context_kwargs.
  induction kwonlyargs as [|k0 ks IH]; intros i ctx Hi Hnone Hbefore; [done|].
  destruct i as [|i].
  - injection Hi as ->. simpl. unfold resolve_kwonly in Hnone.
    destruct (vals !! k); [done|]. destruct kd as [kd|]; [|done].
    simpl in Hnone. by rewrite Hnone.
  - assert (∀ j k', j < i → ks !! j = Some k' →
                    is_Some (resolve_kwonly kd vals k')) as Hbefore'
      by (intros j k' Hj Hk'; apply (Hbefore (S j)); [lia|done]).
    destruct (Hbefore 0 k0) as [v Hv]; [lia|done|].
    simpl. unfold resolve_kwonly in Hv.
    destruct (vals !! k0); [by apply (IH i)|].
    destruct kd as [kd|]; [|done]. simpl in Hv. rewrite Hv. by apply (IH i).
Qed.

(** X5. The first positional parameter of [subfunc] that has neither a
    value nor a default is the one the [ValueError] names. *)
Lemma first_missing_positional_named subfunc superfunc mapping args kwargs bound i p :
  getcallargs superfunc args kwargs = Ok bound →
  defaults_trail (sig_positional subfunc) = true →
  sig_positional subfunc !! i = Some p →
  p_default p = None →
  apply_mapping mapping bound !! p_name p = None →
  (∀ j q, j < i → sig_positional subfunc !! j = Some q →
          is_Some (apply_mapping mapping bound !! p_name q)) →
  proxy_function subfunc superfunc mapping args kwargs
  = Raise (missing_positional (p_name p)).
Proof.
  intros Hcall Htrail Hi Hdef Hnone Hbefore.
  unfold proxy_function. rewrite Hcall. simpl. unfold build_call.
  assert (countdown (length (p_name <$> sig_positional subfunc))
          = countdown (length (sig_positional subfunc))) as Hcd
    by (by rewrite length_fmap).
  rewrite (parse_positional_first_missing _ _ _ _ i (p_name p)
             (length (sig_positional subfunc) - 1 - i)); [done| | |].
  - simpl. rewrite lookup_zip_with, list_lookup_fmap, Hi. simpl.
    rewrite Hcd. unfold countdown.
    apply lookup_lt_Some in Hi as Hlt.
    rewrite reverse_lookup by (rewrite length_seq; lia).
    rewrite length_seq, lookup_seq_lt by lia. simpl. do 2 f_equal. lia.
  - unfold resolve_positional. rewrite Hnone.
    by rewrite (positional_default_mirrored _ _ _ Htrail Hi), Hdef.
  - intros j [name dn] Hj Hp. simpl in *.
    rewrite lookup_zip_with in Hp.
    rewrite list_lookup_fmap in Hp.
    destruct (sig_positional subfunc !! j) as [q|] eqn:Hq; [|done].
    simpl in Hp. destruct (countdown _ !! j); [|done]. injection Hp as <- <-.
    destruct (Hbefore j q Hj Hq) as [v Hv].
    unfold resolve_positional. rewrite Hv. eauto.
Qed.

(** X6. Keyword-only parameters, with the [None] case: once the
    positional part and the two collectors are built, the first keyword-only
    parameter without value and default is named by the [ValueError] when
    [subfunc] declares some keyword-only default, and a [TypeError] is raised
    when it declares none. *)
Lemma first_missing_keyword_named subfunc superfunc mapping args kwargs bound
    named context_args context_kwargs i k :
  getcallargs superfunc args kwargs = Ok bound →
  named_positionals (getfullargspec subfunc) (apply_mapping mapping bound) = Ok named →
  parse_varargs (sig_varargs subfunc) (apply_mapping mapping bound) named
    = Ok context_args →
  parse_varkw (sig_varkw subfunc) (apply_mapping mapping bound) = Ok context_kwargs →
  (p_name <$> sig_kwonly subfunc) !! i = Some k →
  resolve_kwonly (kwonlydefaults (getfullargspec subfunc))
    (apply_mapping mapping bound) k = None →
  (∀ j k', j < i → (p_name <$> sig_kwonly subfunc) !! j = Some k' →
           is_Some (resolve_kwonly (kwonlydefaults (getfullargspec subfunc))
                      (apply_mapping mapping bound) k')) →
  proxy_function subfunc superfunc mapping args kwargs
  = Raise (match kwonlydefaults (getfullargspec subfunc) with
           | Some _ => missing_keyword k
           | None => TypeError NoneNotContainer
           end).
Proof.
  intros Hcall Hnamed Hva Hvk Hi Hnone Hbefore.
  unfold proxy_function. rewrite Hcall. simpl.
  rewrite build_call_eq, Hnamed. simpl.
  rewrite Hva. simpl. unfold named_keywords. simpl.
  rewrite Hvk. simpl.
  by rewrite (parse_kwonly_first_missing _ _ _ _ i k Hi Hnone Hbefore).
Qed.

(** *** Declaration order *)

Lemma parse_positional_bound defaults vals pairs context_args :
  (∀ p, p ∈ pairs → is_Some (vals !! p.1)) →
  ∃ out, parse_positional defaults vals pairs context_args = Ok out.
Proof.
  revert context_args.
  induction pairs as [|[arg_name default_num] pairs IH]; intros acc Hb; simpl.
  - eauto.
  - destruct (Hb (arg_name, default_num)) as [v Hv]; [left|].
    simpl in Hv. rewrite Hv. apply IH. intros p Hp. apply Hb. by right.
Qed.

Lemma named_positionals_bound spec vals :
  (∀ arg_name, arg_name ∈ args spec → is_Some (vals !! arg_name)) →
  ∃ named,
    named_positionals spec vals = Ok named
    ∧ ∀ i arg_name, args spec !! i = Some arg_name → named !! i = vals !! arg_name.
Proof.
  intros Hb.
  destruct (parse_positional_bound (defaults spec) vals
              (zip (args spec) (countdown (length (args spec)))) []) as [named Hn].
  { intros [k dn] Hp. apply Hb. by apply elem_of_zip_l in Hp. }
  exists named. split; [done|]. intros i arg_name Hi.
  destruct (named_positionals_lookup _ _ _ _ _ Hn Hi) as [-> _].
  unfold resolve_positional.
  destruct (Hb arg_name) as [v ->]; [|done].
  by apply list_elem_of_lookup_2 in Hi.
Qed.

Lemma parse_kwonly_total kd vals kwonlyargs context_kwargs :
  (∀ k, k ∈ kwonlyargs → is_Some (resolve_kwonly kd vals k)) →
  ∃ kw, parse_kwonly kd vals kwonlyargs context_kwargs = Ok kw.
Proof.
  revert context_kwargs.
  induction kwonlyargs as [|k0 ks IH]; intros ctx Hres; simpl; [eauto|].
  assert (∀ k, k ∈ ks → is_Some (resolve_kwonly kd vals k)) as Hres'
    by (intros k Hk; apply Hres; by right).
  destruct (Hres k0) as [v Hv]; [left|]. unfold resolve_kwonly in Hv.
  destruct (vals !! k0); [by apply IH|].
  destruct kd as [kd|]; [|done]. simpl in Hv. rewrite Hv. by apply IH.
Qed.

Lemma parse_kwonly_permutation kd vals ks ks' ctx (kw : gmap string value) :
  ks' ≡ₚ ks →
  parse_kwonly kd vals ks ctx = Ok kw →
  parse_kwonly kd vals ks' ctx = Ok kw.
Proof.
  intros Hperm Hok.
  destruct (parse_kwonly_Ok _ _ _ _ _ Hok) as [Hin Hout].
  destruct (parse_kwonly_total kd vals ks' ctx) as [kw' Hok'].
  { intros k Hk. rewrite Hperm in Hk. destruct (Hin k Hk) as [<- ?]. done. }
  rewrite Hok'. f_equal. apply map_eq. intros k.
  destruct (parse_kwonly_Ok _ _ _ _ _ Hok') as [Hin' Hout'].
  destruct (decide (k ∈ ks)) as [Hk|Hk].
  - destruct (Hin k Hk) as [-> _]. apply Hin'. by rewrite Hperm.
  - rewrite (Hout k Hk). apply Hout'. by rewrite Hperm.
Qed.

(** Where the declaration order does not matter: when every positional
    parameter of [subfunc] has a value, so that no positional default is
    read, reordering its positional parameters and its keyword-only
    parameters (the keyword-only defaults being the same mapping) gives the
    same keyword arguments, the same value for every positional name, and
    the same unpacked tail. *)
Lemma order_independent_when_bound subfunc subfunc' vals pos kw :
  sig_positional subfunc' ≡ₚ sig_positional subfunc →
  sig_kwonly subfunc' ≡ₚ sig_kwonly subfunc →
  kwonlydefaults (getfullargspec subfunc') = kwonlydefaults (getfullargspec subfunc) →
  sig_varargs subfunc' = sig_varargs subfunc →
  sig_varkw subfunc' = sig_varkw subfunc →
  (∀ p, p ∈ sig_positional subfunc → is_Some (vals !! p_name p)) →
  build_call (getfullargspec subfunc) vals = Ok (pos, kw) →
  ∃ pos',
    build_call (getfullargspec subfunc') vals = Ok (pos', kw)
    ∧ (∀ i j arg_name,
         (p_name <$> sig_positional subfunc) !! i = Some arg_name →
         (p_name <$> sig_positional subfunc') !! j = Some arg_name →
         pos' !! j = pos !! i)
    ∧ drop (length (sig_positional subfunc')) pos'
      = drop (length (sig_positional subfunc)) pos.
Proof.
  intros Hperm Hkperm Hkd Hva Hvk Hbound.
  rewrite !build_call_eq.
  destruct (named_positionals_bound (getfullargspec subfunc) vals)
    as (named & Hnamed & Hlook).
  { intros k (p & -> & Hp)%list_elem_of_fmap. by apply Hbound. }
  destruct (named_positionals_bound (getfullargspec subfunc') vals)
    as (named' & Hnamed' & Hlook').
  { intros k (p & -> & Hp)%list_elem_of_fmap. apply Hbound. by rewrite <- Hperm. }
  rewrite Hnamed, Hnamed'. simpl. rewrite Hva.
  destruct (parse_varargs _ vals named) as [ca|] eqn:Hca; simpl; [|done].
  apply parse_varargs_Ok in Hca as Hca_eq.
  assert (parse_varargs (sig_varargs subfunc) vals named'
          = Ok (named' ++ default [] (r ← sig_varargs subfunc; v ← vals !! r; iterate v)))
    as ->.
  { revert Hca. unfold parse_varargs. destruct (sig_varargs subfunc) as [r|]; simpl.
    - destruct (vals !! r) as [v|]; simpl; [|by rewrite app_nil_r].
      by destruct (iterate v).
    - by rewrite app_nil_r. }
  simpl. unfold named_keywords. simpl in *. rewrite Hvk.
  destruct (parse_varkw _ vals) as [ctx|]; simpl; [|done].
  rewrite Hkd.
  destruct (parse_kwonly _ vals (p_name <$> sig_kwonly subfunc) ctx) as [ckw|] eqn:Hckw;
    simpl; [|done].
  intros [= <- <-].
  rewrite (parse_kwonly_permutation _ _ _ _ _ _ (fmap_Permutation p_name _ _ Hkperm) Hckw).
  simpl. eexists. split; [done|].
  pose proof (named_positionals_length _ _ _ Hnamed) as Hlen.
  pose proof (named_positionals_length _ _ _ Hnamed') as Hlen'.
  split.
  - intros i j arg_name Hi Hj.
    apply lookup_lt_Some in Hi as Hlti. apply lookup_lt_Some in Hj as Hltj.
    rewrite length_fmap in Hlti, Hltj.
    rewrite Hca_eq, !lookup_app_l by lia.
    by rewrite (Hlook _ _ Hi), (Hlook' _ _ Hj).
  - by rewrite Hca_eq, <- Hlen, <- Hlen', !drop_app_length.
Qed.

Lemma kwonlydefaults_permutation func func' :
  sig_kwonly func' ≡ₚ sig_kwonly func →
  NoDup (p_name <$> sig_kwonly func) →
  kwonlydefaults (getfullargspec func') = kwonlydefaults (getfullargspec func).
Proof.
  intros Hperm Hnd. simpl.
  match goal with |- context [foldl ?f ∅ (sig_kwonly func)] => set (step := f) end.
  assert (∀ l l' : list parameter, l' ≡ₚ l → NoDup (p_name <$> l) →
            ∀ acc, foldl step acc l' = foldl step acc l) as Hfold.
  { clear. intros l l' Hperm. induction Hperm as [|x l' l _ IH|x y l|l' l'' l H1 IH1 H2 IH2];
      intros Hnd acc; simpl.
    - done.
    - apply IH. by apply NoDup_cons in Hnd as [_ ?].
    - f_equal. simpl in Hnd.
      apply NoDup_cons in Hnd as [Hne _]. apply not_elem_of_cons in Hne as [Hne _].
      unfold step. destruct (p_default x), (p_default y); try done.
      by apply insert_insert_ne.
    - rewrite IH1; [by apply IH2|].
      by rewrite (fmap_Permutation p_name _ _ H2). }
  by rewrite (Hfold _ _ Hperm Hnd).
Qed.

(** *** Calls that [getcallargs] rejects *)

Lemma getcallargs_too_many func positional named :
  sig_varargs func = None →
  length (sig_positional func) < length positional →
  ∃ e, getcallargs func positional named = Raise e.
Proof.
  intros Hva Hlen. unfold getcallargs. simpl.
  destruct (bind_named _ _ _ _); simpl; [|eauto].
  rewrite Hva, length_fmap.
  rewrite (bool_decide_eq_true_2 (length (sig_positional func) < length positional))
    by done.
  rewrite (bool_decide_eq_true_2 (None = None)) by done. simpl. eauto.
Qed.

Lemma bind_named_no_varkw possible named (m m' : gmap string value) :
  bind_named None possible named m = Ok m' →
  ∀ kw, kw ∈ named.*1 → kw ∈ possible.
Proof.
  revert m. induction named as [|[kw0 v0] named IH]; intros m; simpl.
  - intros _ kw Hkw. by apply elem_of_nil in Hkw.
  - case_bool_decide as Hposs; [|done].
    case_bool_decide; [done|]. intros Hb kw [->|Hkw]%elem_of_cons; [done|].
    by apply (IH _ Hb).
Qed.

Lemma getcallargs_unexpected_keyword func positional named kw :
  sig_varkw func = None →
  kw ∈ named.*1 →
  kw ∉ (p_name <$> sig_positional func) ++ (p_name <$> sig_kwonly func) →
  ∃ e, getcallargs func positional named = Raise e.
Proof.
  intros Hvk Hkw Hposs. unfold getcallargs. simpl. rewrite Hvk.
  destruct (bind_named _ _ _ _) as [m1|e] eqn:Hb; simpl; [|eauto].
  destruct Hposs. by apply (bind_named_no_varkw _ _ _ _ Hb).
Qed.

Lemma bind_positional_lookup_beyond args positional r :
  r ∉ take (length positional `min` length args) args →
  bind_positional args positional !! r = None.
Proof.
  unfold bind_positional. intros Hr.
  assert (∀ (l : list (string * value)) (m : gmap string value),
            r ∉ l.*1 → foldl (λ m '(arg, v), <[arg := v]> m) m l !! r = m !! r) as Hfold.
  { induction l as [|[a v] l IH]; intros m Hl; simpl; [done|].
    apply not_elem_of_cons in Hl as [Hne Hl].
    rewrite IH; [|done]. apply lookup_insert_ne. by intros ->. }
  rewrite Hfold; [by rewrite lookup_empty|].
  intros Hin. apply Hr. apply list_elem_of_fmap in Hin as ([a v] & -> & Hin).
  by apply elem_of_zip_l in Hin.
Qed.

Lemma bind_named_lookup_absent vk possible named (m m' : gmap string value) r :
  r ∉ named.*1 → vk ≠ Some r →
  bind_named vk possible named m = Ok m' → m' !! r = m !! r.
Proof.
  intros Hr Hvk. revert m Hr.
  induction named as [|[kw v] named IH]; intros m Hr; simpl; [by intros [= <-]|].
  simpl in Hr. apply not_elem_of_cons in Hr as [Hne Hr].
  case_bool_decide as Hposs.
  - case_bool_decide; [done|]. intros Hb. rewrite (IH _ Hr Hb).
    by apply lookup_insert_ne.
  - destruct vk as [k|]; [|done].
    destruct (m !! k) as [[]|]; try done.
    intros Hb. rewrite (IH _ Hr Hb). apply lookup_insert_ne. by intros ->.
Qed.

(** A positional parameter of [superfunc] without a default that receives
    neither a positional nor a keyword argument makes the binding fail. *)
Lemma getcallargs_missing_required func positional named i p :
  well_formed func →
  sig_positional func !! i = Some p →
  p_default p = None →
  length positional <= i →
  p_name p ∉ named.*1 →
  ∃ e, getcallargs func positional named = Raise e.
Proof.
  intros [Htrail Hnd] Hi Hdef Hpos Hnamed.
  apply lookup_lt_Some in Hi as Hlt.
  assert (NoDup (p_name <$> sig_positional func)) as Hnd_args
    by (unfold names in Hnd; by apply NoDup_app in Hnd as [? _]).
  assert (sig_varargs func ≠ Some (p_name p)) as Hva.
  { intros Hva. unfold names in Hnd. rewrite Hva in Hnd.
    apply NoDup_app in Hnd as (_ & Hdisj & _).
    apply (Hdisj (p_name p)); [|by left].
    apply list_elem_of_fmap. exists p. split; [done|].
    by apply list_elem_of_lookup_2 in Hi. }
  assert (sig_varkw func ≠ Some (p_name p)) as Hvk.
  { intros Hvk. unfold names in Hnd. rewrite Hvk in Hnd.
    apply NoDup_app in Hnd as (_ & Hdisj & _).
    apply (Hdisj (p_name p)).
    - apply list_elem_of_fmap. exists p. split; [done|].
      by apply list_elem_of_lookup_2 in Hi.
    - rewrite !elem_of_app. right. right. by left. }
  unfold getcallargs. simpl.
  match goal with |- context [bind_named ?vk ?poss ?nm ?m] =>
    pose proof (λ m', bind_named_lookup_absent vk poss nm m m' (p_name p) Hnamed Hvk)
      as Hbn;
    assert (m !! p_name p = None) as Hm0;
    [|destruct (bind_named vk poss nm m) as [m1|e1]; [|simpl; eauto]] end.
  { assert (∀ m : gmap string value,
              match sig_varkw func with
              | Some vk => <[vk := VDict []]> m
              | None => m
              end !! p_name p = m !! p_name p) as ->.
    { intros m. destruct (sig_varkw func) as [vk|]; [|done].
      apply lookup_insert_ne. by intros ->. }
    assert (∀ (m : gmap string value) t,
              match sig_varargs func with
              | Some va => <[va := t]> m
              | None => m
              end !! p_name p = m !! p_name p) as ->.
    { intros m t. destruct (sig_varargs func) as [va|]; [|done].
      apply lookup_insert_ne. by intros ->. }
    apply bind_positional_lookup_beyond.
    intros (j & Hj & Hjlt)%elem_of_take.
    rewrite length_fmap in Hjlt.
    assert (j = i); [|lia].
    eapply NoDup_lookup; [exact Hnd_args|exact Hj|].
    by rewrite list_lookup_fmap, Hi. }
  specialize (Hbn m1 eq_refl). rewrite Hm0 in Hbn. simpl.
  rewrite length_fmap.
  rewrite (bool_decide_eq_false_2 (length (sig_positional func) < length positional))
    by lia.
  simpl. rewrite bool_decide_eq_true_2 by lia.
  rewrite bool_decide_eq_false_2; [simpl; eauto|].
  rewrite Forall_forall. intros Hall.
  destruct (Hall (p_name p)) as [v Hv]; [|congruence].
  apply elem_of_take. exists i. split; [by rewrite list_lookup_fmap, Hi|].
  apply defaults_trail_split in Htrail as (req & opt & Heq & Hreq & Hopt).
  assert (default [] (if decide (omap p_default (sig_positional func) = [])
                      then None else Some (omap p_default (sig_positional func)))
          = omap p_default (sig_positional func)) as ->.
  { case_decide as Hnil; [by rewrite Hnil | done]. }
  rewrite Heq in *. rewrite omap_app, (omap_defaults_none _ Hreq). simpl.
  destruct (omap_defaults_some _ Hopt) as [-> _].
  rewrite length_app.
  destruct (decide (i < length req)) as [|Hge]; [lia|].
  rewrite lookup_app_r in Hi by lia.
  rewrite Forall_lookup in Hopt. destruct (Hopt _ _ Hi) as [dflt Hd]. congruence.
Qed.

(** *** Calls that succeed *)

Lemma proxy_function_inv subfunc superfunc mapping args kwargs pos kw :
  proxy_function subfunc superfunc mapping args kwargs = Ok (pos, kw) →
  ∃ bound named,
    getcallargs superfunc args kwargs = Ok bound
    ∧ named_positionals (getfullargspec subfunc) (apply_mapping mapping bound) = Ok named
    ∧ parse_varargs (sig_varargs subfunc) (apply_mapping mapping bound) named = Ok pos
    ∧ named_keywords (getfullargspec subfunc) (apply_mapping mapping bound) = Ok kw.
Proof.
  intros Hok.
  destruct (getcallargs superfunc args kwargs) as [bound|e] eqn:Hcall.
  - destruct (proxy_function_Ok _ _ _ _ _ _ _ _ Hcall Hok) as (named & ? & ? & ?).
    by exists bound, named.
  - unfold proxy_function in Hok. by rewrite Hcall in Hok.
Qed.

(** X1. When every positional and keyword-only parameter of [subfunc] has a
    value among the bound values (after [mapping]), and the values under its
    collector names, if any, can be unpacked, the call returns: each positional
    slot and each keyword-only entry holds the value bound to its name. *)
Theorem bound_names_succeed subfunc superfunc mapping args kwargs bound :
  getcallargs superfunc args kwargs = Ok bound →
  Forall (λ p, is_Some (apply_mapping mapping bound !! p_name p))
    (sig_positional subfunc ++ sig_kwonly subfunc) →
  (∀ r v, sig_varargs subfunc = Some r →
          apply_mapping mapping bound !! r = Some v → is_Some (iterate v)) →
  (∀ r v, sig_varkw subfunc = Some r →
          apply_mapping mapping bound !! r = Some v → ∃ d, dict_of v = Ok d) →
  ∃ pos kw,
    proxy_function subfunc superfunc mapping args kwargs = Ok (pos, kw)
    ∧ (∀ i p, sig_positional subfunc !! i = Some p →
              pos !! i = apply_mapping mapping bound !! p_name p)
    ∧ (∀ p, p ∈ sig_kwonly subfunc →
            kw !! p_name p = apply_mapping mapping bound !! p_name p).
Proof.
  intros Hcall [Hpos Hkw]%Forall_app Hva Hvk.
  rewrite Forall_forall in Hpos. rewrite Forall_forall in Hkw.
  set (vals := apply_mapping mapping bound) in *.
  destruct (named_positionals_bound (getfullargspec subfunc) vals)
    as (named & Hnamed & Hlook).
  { intros k (p & -> & Hp)%list_elem_of_fmap. by apply Hpos. }
  assert (∃ tail, parse_varargs (sig_varargs subfunc) vals named = Ok (named ++ tail))
    as [tail Htail].
  { unfold parse_varargs. destruct (sig_varargs subfunc) as [r|]; simpl.
    - destruct (vals !! r) as [v|] eqn:Hv.
      + destruct (Hva r v eq_refl Hv) as [items ->]. eauto.
      + exists []. by rewrite app_nil_r.
    - exists []. by rewrite app_nil_r. }
  assert (∃ ctx, parse_varkw (sig_varkw subfunc) vals = Ok ctx) as [ctx Hctx].
  { unfold parse_varkw. destruct (sig_varkw subfunc) as [r|]; [|eauto].
    destruct (vals !! r) as [v|] eqn:Hv; [|eauto]. by apply (Hvk r v). }
  destruct (parse_kwonly_total (kwonlydefaults (getfullargspec subfunc)) vals
              (p_name <$> sig_kwonly subfunc) ctx) as [kw Hkwok].
  { intros k (p & -> & Hp)%list_elem_of_fmap. unfold resolve_kwonly.
    destruct (Hkw p Hp) as [v ->]. eauto. }
  exists (named ++ tail), kw. split_and!.
  - unfold proxy_function. rewrite Hcall. simpl. fold vals.
    rewrite build_call_eq, Hnamed. simpl. rewrite Htail. simpl.
    unfold named_keywords. simpl. rewrite Hctx. simpl.
    change (foldl _ ∅ (sig_kwonly subfunc)) with
      (foldl (λ (kd : gmap string value) p,
                match p_default p with
                | Some d => <[p_name p := d]> kd
                | None => kd
                end) ∅ (sig_kwonly subfunc)).
    simpl in Hkwok. by rewrite Hkwok.
  - intros i p Hi.
    assert ((p_name <$> sig_positional subfunc) !! i = Some (p_name p)) as Hi'
      by (by rewrite list_lookup_fmap, Hi).
    rewrite <- (Hlook _ _ Hi'). apply lookup_app_l.
    rewrite (named_positionals_length _ _ _ Hnamed). by apply lookup_lt_Some in Hi.
  - intros p Hp.
    destruct (parse_kwonly_Ok _ _ _ _ _ Hkwok) as [Hin _].
    destruct (Hin (p_name p)) as [-> _].
    + apply list_elem_of_fmap. eauto.
    + unfold resolve_kwonly. by destruct (Hkw p Hp) as [v ->].
Qed.

Lemma bound_names_succeed_witness :
  ∃ pos kw,
    proxy_function doc_subfunc doc_superfunc ∅ [VInt 15; VInt 18; VInt 22] []
    = Ok (pos, kw)
    ∧ pos !! 0 = Some (VInt 18).
Proof.
  assert (getcallargs doc_superfunc [VInt 15; VInt 18; VInt 22] []
          = Ok {["x" := VInt 15; "y" := VInt 18; "z" := VInt 22;
                 "kwargs" := VDict []]}) as Hcall by (vm_compute; reflexivity).
  destruct (bound_names_succeed doc_subfunc doc_superfunc ∅ _ _ _ Hcall)
    as (pos & kw & Hok & Hpos & _).
  - apply (bool_decide_unpack _). vm_compute. exact I.
  - intros r v [=].
  - intros r v [=].
  - exists pos, kw. split; [exact Hok|].
    rewrite (Hpos 0 (required "y") eq_refl). vm_compute. reflexivity.
Defined.

(** X2. A returned call fits the signature of [subfunc]: the positional
    output has one value per positional parameter, and nothing more unless
    [subfunc] declares [*varargs]; the keyword output has an entry for every
    keyword-only parameter, and for nothing else unless [subfunc] declares
    [**varkw]. *)
Theorem output_fits_signature subfunc superfunc mapping args kwargs pos kw :
  proxy_function subfunc superfunc mapping args kwargs = Ok (pos, kw) →
  length (sig_positional subfunc) <= length pos
  ∧ (sig_varargs subfunc = None → length pos = length (sig_positional subfunc))
  ∧ (∀ k, k ∈ p_name <$> sig_kwonly subfunc → is_Some (kw !! k))
  ∧ (sig_varkw subfunc = None →
     ∀ k, is_Some (kw !! k) → k ∈ p_name <$> sig_kwonly subfunc).
Proof.
  intros (bound & named & _ & Hnamed & Hva & Hkw)%proxy_function_inv.
  apply named_positionals_length in Hnamed.
  apply parse_varargs_Ok in Hva as Hpos.
  split_and!.
  - rewrite Hpos, length_app. lia.
  - intros Hnone. rewrite Hnone in Hva. simpl in Hva. by injection Hva as <-.
  - intros k Hk. by destruct (named_keywords_lookup _ _ _ k Hkw Hk).
  - intros Hnone k Hsome. revert Hkw. unfold named_keywords. simpl.
    rewrite Hnone. simpl. intros [_ Hout]%parse_kwonly_Ok.
    destruct (decide (k ∈ p_name <$> sig_kwonly subfunc)) as [|Hk]; [done|].
    rewrite (Hout k Hk), lookup_empty in Hsome. by destruct Hsome.
Qed.

Lemma output_fits_signature_witness :
  length (sig_positional doc_subfunc) <= length [VInt 18; VInt 1]
  ∧ length [VInt 18; VInt 1] = length (sig_positional doc_subfunc).
Proof.
  assert (proxy_function doc_subfunc doc_superfunc {["x" := VInt 1]}
            [VInt 15; VInt 18; VInt 22] [("something", VStr "something else")]
          = Ok ([VInt 18; VInt 1], ∅)) as Hok by (vm_compute; reflexivity).
  destruct (output_fits_signature _ _ _ _ _ _ _ Hok) as (Hle & Heq & _).
  split; [exact Hle | exact (Heq eq_refl)].
Defined.

(** *** Binding the output against [subfunc] *)

Lemma bind_positional_lookup args positional i arg v :
  NoDup args → args !! i = Some arg → positional !! i = Some v →
  bind_positional args positional !! arg = Some v.
Proof.
  unfold bind_positional. intros Hnd Hi Hv.
  set (n := length positional `min` length args).
  assert (∀ (l : list (string * value)) (m : gmap string value),
            arg ∉ l.*1 →
            foldl (λ m '(arg, v), <[arg := v]> m) m l !! arg = m !! arg) as Hne.
  { induction l as [|[a0 v0] l IH]; intros m Hl; simpl; [done|].
    apply not_elem_of_cons in Hl as [Hne Hl].
    rewrite IH; [|done]. apply lookup_insert_ne. by intros ->. }
  assert (∀ (l : list (string * value)) (m : gmap string value),
            NoDup l.*1 → (arg, v) ∈ l →
            foldl (λ m '(arg, v), <[arg := v]> m) m l !! arg = Some v) as Hin.
  { induction l as [|[a0 v0] l IH]; intros m Hl Hmem; simpl.
    { by apply elem_of_nil in Hmem. }
    simpl in Hl. apply NoDup_cons in Hl as [Hfresh Hl].
    apply elem_of_cons in Hmem as [[= <- <-]|Hmem].
    - rewrite Hne by done. apply lookup_insert_eq.
    - by apply IH. }
  apply lookup_lt_Some in Hi as Hlti. apply lookup_lt_Some in Hv as Hltv.
  apply Hin.
  - rewrite fst_zip by (rewrite length_take; lia).
    eapply sublist_NoDup; [exact Hnd | apply sublist_take].
  - apply list_elem_of_lookup. exists i.
    rewrite lookup_zip_with, lookup_take_lt by (unfold n; lia).
    by rewrite Hi, Hv.
Qed.

Lemma bind_named_fresh vk possible named (m : gmap string value) :
  NoDup named.*1 →
  (∀ k, k ∈ named.*1 → k ∈ possible ∧ m !! k = None) →
  bind_named vk possible named m = Ok (list_to_map named ∪ m).
Proof.
  revert m. induction named as [|[k0 v0] named IH]; intros m Hnd Hk; simpl.
  { by rewrite (left_id_L ∅ (∪)). }
  simpl in Hnd. apply NoDup_cons in Hnd as [Hfresh Hnd].
  destruct (Hk k0) as [Hposs Hnone]; [left|].
  rewrite bool_decide_eq_true_2 by done.
  rewrite bool_decide_eq_false_2 by (rewrite Hnone; by intros [? ?]).
  rewrite IH; [|done|].
  - f_equal. rewrite <- insert_union_l. symmetry. apply insert_union_r.
    by apply not_elem_of_list_to_map_1.
  - intros k Hin. destruct (Hk k) as [? ?]; [by right|]. split; [done|].
    rewrite lookup_insert_ne; [done|]. by intros ->.
Qed.

Lemma fill_kwonly_bound kd kwonlyargs (m : gmap string value) :
  (∀ k, k ∈ kwonlyargs → is_Some (m !! k)) →
  fill_kwonly kd kwonlyargs m = (m, 0).
Proof.
  unfold fill_kwonly. generalize 0.
  induction kwonlyargs as [|k ks IH]; intros c Hb; simpl; [done|].
  rewrite bool_decide_eq_true_2 by (apply Hb; left).
  apply IH. intros k' Hk'. apply Hb. by right.
Qed.

(** [getcallargs] on exactly as many positional arguments as parameters (or
    more, into [*varargs]) and on keywords that are exactly the keyword-only
    parameters: nothing is missing and nothing is left over. *)
Lemma getcallargs_exact func positional (kw : gmap string value) :
  NoDup (names func) →
  sig_varkw func = None →
  length (sig_positional func) <= length positional →
  (sig_varargs func = None → length positional = length (sig_positional func)) →
  (∀ k, is_Some (kw !! k) ↔ k ∈ p_name <$> sig_kwonly func) →
  getcallargs func positional (map_to_list kw)
  = Ok (kw ∪ match sig_varargs func with
             | Some va =>
                 <[va := VTuple (drop (length (sig_positional func)) positional)]>
                   (bind_positional (p_name <$> sig_positional func) positional)
             | None => bind_positional (p_name <$> sig_positional func) positional
             end).
Proof.
  intros Hnd Hvk Hlen Hexact Hkw. unfold getcallargs. simpl.
  rewrite Hvk, length_fmap, Nat.min_r by done.
  unfold names in Hnd. rewrite Hvk in Hnd. simpl in Hnd.
  rewrite app_nil_r in Hnd.
  apply NoDup_app in Hnd as (Hnd_args & Hdisj & Hnd').
  rewrite bind_named_fresh; [|apply NoDup_fst_map_to_list|]; last first.
  { intros k Hk. apply list_elem_of_fmap in Hk as ([k' v] & -> & Hk).
    apply elem_of_map_to_list in Hk. simpl.
    assert (k' ∈ p_name <$> sig_kwonly func) as Hin by (apply Hkw; eauto).
    split; [apply elem_of_app; by right|].
    assert (bind_positional (p_name <$> sig_positional func) positional !! k' = None)
      as Hbp.
    { apply bind_positional_lookup_ne. intros Hargs.
      apply (Hdisj _ Hargs). apply elem_of_app. by right. }
    destruct (sig_varargs func) as [va|]; [|done].
    rewrite lookup_insert_ne; [done|]. intros ->.
    simpl in Hnd'. apply NoDup_cons in Hnd' as [Hfresh _]. done. }
  rewrite list_to_map_to_list. simpl.
  assert (bool_decide (length (sig_positional func) < length positional)
          && bool_decide (sig_varargs func = None) = false) as ->.
  { destruct (sig_varargs func) as [va|].
    - rewrite (bool_decide_eq_false_2 (Some va = None)) by done.
      apply andb_false_r.
    - rewrite bool_decide_eq_false_2; [done|]. specialize (Hexact eq_refl). lia. }
  simpl.
  rewrite (bool_decide_eq_false_2 (length positional < length (sig_positional func)))
    by lia.
  simpl.
  rewrite fill_kwonly_bound; [done|].
  intros k Hk. apply Hkw in Hk as [v Hv].
  rewrite lookup_union, Hv.
  match goal with |- is_Some (_ ∪ ?o) => destruct o end; by eexists.
Qed.

Lemma getcallargs_exact_lookup func positional (kw : gmap string value) :
  NoDup (names func) →
  sig_varkw func = None →
  length (sig_positional func) <= length positional →
  (sig_varargs func = None → length positional = length (sig_positional func)) →
  (∀ k, is_Some (kw !! k) ↔ k ∈ p_name <$> sig_kwonly func) →
  ∃ b,
    getcallargs func positional (map_to_list kw) = Ok b
    ∧ (∀ i arg_name, (p_name <$> sig_positional func) !! i = Some arg_name →
                     b !! arg_name = positional !! i)
    ∧ (∀ k, k ∈ p_name <$> sig_kwonly func → b !! k = kw !! k)
    ∧ (∀ r, sig_varargs func = Some r →
            b !! r = Some (VTuple (drop (length (sig_positional func)) positional)))
    ∧ (∀ x, x ∉ names func → b !! x = None).
Proof.
  intros Hnd Hvk Hlen Hexact Hkw.
  eexists. split; [by apply getcallargs_exact|].
  unfold names in *. rewrite Hvk in *. simpl in *. rewrite app_nil_r in *.
  pose proof Hnd as (Hnd_args & Hdisj & Hnd')%NoDup_app.
  assert (∀ x, x ∉ p_name <$> sig_kwonly func → kw !! x = None) as Hkw_none.
  { intros x Hx. destruct (kw !! x) eqn:Hkx; [|done].
    destruct Hx. apply Hkw. eauto. }
  split_and!.
  - intros i arg_name Hi.
    assert (arg_name ∈ p_name <$> sig_positional func) as Hin
      by (by apply list_elem_of_lookup_2 in Hi).
    rewrite lookup_union, Hkw_none; last first.
    { intros Hk. apply (Hdisj _ Hin). apply elem_of_app. by right. }
    rewrite (left_id_L None (∪)).
    apply lookup_lt_Some in Hi as Hlt. rewrite length_fmap in Hlt.
    destruct (lookup_lt_is_Some_2 positional i) as [v Hv]; [lia|].
    rewrite Hv.
    assert (bind_positional (p_name <$> sig_positional func) positional !! arg_name
            = Some v) as Hbp by (by apply (bind_positional_lookup _ _ i)).
    destruct (sig_varargs func) as [va|]; [|done].
    rewrite lookup_insert_ne; [done|]. intros ->.
    apply (Hdisj _ Hin). by left.
  - intros k Hk. pose proof Hk as [v Hv]%Hkw.
    by rewrite lookup_union, Hv, union_Some_l.
  - intros r Hr. rewrite Hr in *. simpl in Hnd'.
    apply NoDup_cons in Hnd' as [Hfresh _].
    rewrite lookup_union, Hkw_none by done.
    by rewrite (left_id_L None (∪)), lookup_insert_eq.
  - intros x [Hx1 [Hx2 Hx3]%not_elem_of_app]%not_elem_of_app.
    rewrite lookup_union, (Hkw_none _ Hx3), (left_id_L None (∪)).
    assert (bind_positional (p_name <$> sig_positional func) positional !! x = None)
      as Hbp by (by apply bind_positional_lookup_ne).
    destruct (sig_varargs func) as [va|]; [|done].
    rewrite lookup_insert_ne; [done|]. intros ->. apply Hx2. by left.
Qed.

Lemma call_shape subfunc vals named pos (kw : gmap string value) :
  named_positionals (getfullargspec subfunc) vals = Ok named →
  parse_varargs (sig_varargs subfunc) vals named = Ok pos →
  named_keywords (getfullargspec subfunc) vals = Ok kw →
  sig_varkw subfunc = None →
  length (sig_positional subfunc) <= length pos
  ∧ (sig_varargs subfunc = None → length pos = length (sig_positional subfunc))
  ∧ (∀ k, is_Some (kw !! k) ↔ k ∈ p_name <$> sig_kwonly subfunc).
Proof.
  intros Hnamed Hva Hkw Hnone.
  apply named_positionals_length in Hnamed.
  apply parse_varargs_Ok in Hva as Hpos.
  split_and!.
  - rewrite Hpos, length_app. lia.
  - intros Hnva. rewrite Hnva in Hva. simpl in Hva. by injection Hva as <-.
  - intros k. split.
    + intros Hsome. revert Hkw. unfold named_keywords. simpl.
      rewrite Hnone. simpl. intros [_ Hout]%parse_kwonly_Ok.
      destruct (decide (k ∈ p_name <$> sig_kwonly subfunc)) as [|Hk]; [done|].
      rewrite (Hout k Hk), lookup_empty in Hsome. by destruct Hsome.
    + intros Hk. by destruct (named_keywords_lookup _ _ _ k Hkw Hk).
Qed.

(** X3. The output is a call that [subfunc] accepts.  For a [subfunc]
    with distinct parameter names and no [**varkw], binding the returned
    positional and keyword arguments against [subfunc] succeeds, gives every
    positional parameter the value of its slot, every keyword-only parameter
    its entry, [*varargs] the values beyond the declared parameters, and
    binds no other name. *)
Theorem output_binds_to_subfunc subfunc superfunc mapping args kwargs pos kw :
  NoDup (names subfunc) →
  sig_varkw subfunc = None →
  proxy_function subfunc superfunc mapping args kwargs = Ok (pos, kw) →
  ∃ b,
    getcallargs subfunc pos (map_to_list kw) = Ok b
    ∧ (∀ i arg_name, (p_name <$> sig_positional subfunc) !! i = Some arg_name →
                     b !! arg_name = pos !! i)
    ∧ (∀ k, k ∈ p_name <$> sig_kwonly subfunc → b !! k = kw !! k)
    ∧ (∀ r, sig_varargs subfunc = Some r →
            b !! r = Some (VTuple (drop (length (sig_positional subfunc)) pos)))
    ∧ (∀ x, x ∉ names subfunc → b !! x = None).
Proof.
  intros Hnd Hvk (bound & named & _ & Hnamed & Hva & Hkw)%proxy_function_inv.
  destruct (call_shape _ _ _ _ _ Hnamed Hva Hkw Hvk) as (Hle & Hexact & Hdom).
  by apply getcallargs_exact_lookup.
Qed.

Lemma output_binds_to_subfunc_witness :
  ∃ b,
    getcallargs doc_subfunc [VInt 18; VInt 1] (map_to_list ∅) = Ok b
    ∧ b !! "y" = Some (VInt 18) ∧ b !! "x" = Some (VInt 1).
Proof.
  assert (proxy_function doc_subfunc doc_superfunc {["x" := VInt 1]}
            [VInt 15; VInt 18; VInt 22] [("something", VStr "something else")]
          = Ok ([VInt 18; VInt 1], ∅)) as Hok by (vm_compute; reflexivity).
  assert (NoDup (names doc_subfunc)) as Hnd.
  { apply (bool_decide_unpack _). vm_compute. exact I. }
  destruct (output_binds_to_subfunc _ _ _ _ _ _ _ Hnd eq_refl Hok)
    as (b & Hb & Hpos & _).
  exists b. split; [exact Hb|].
  split; [exact (Hpos 0 "y" eq_refl) | exact (Hpos 1 "x" eq_refl)].
Defined.

(** *** [getcallargs] binds every parameter *)

Lemma bind_named_mono vk possible named (m m' : gmap string value) k :
  bind_named vk possible named m = Ok m' →
  is_Some (m !! k) → is_Some (m' !! k).
Proof.
  revert m. induction named as [|[kw v] named IH]; intros m; simpl.
  { by intros [= <-]. }
  assert (∀ k' x, is_Some (m !! k) → is_Some (<[k' := x]> m !! k)) as Hins.
  { intros k' x Hs. rewrite lookup_insert. by case_decide. }
  case_bool_decide.
  - case_bool_decide; [done|]. intros Hb Hs. apply (IH _ Hb). by apply Hins.
  - destruct vk as [k'|]; [|done]. destruct (m !! k') as [[]|]; try done.
    intros Hb Hs. apply (IH _ Hb). by apply Hins.
Qed.

Lemma fill_defaults_mono tail dflts (m : gmap string value) k :
  is_Some (m !! k) → is_Some (fill_defaults tail dflts m !! k).
Proof.
  unfold fill_defaults. revert dflts m.
  induction tail as [|a tail IH]; intros [|d dflts] m Hs; simpl; try done.
  apply IH. case_bool_decide; [done|]. rewrite lookup_insert. by case_decide.
Qed.

Lemma fill_defaults_covers tail dflts (m : gmap string value) k :
  length tail <= length dflts → k ∈ tail →
  is_Some (fill_defaults tail dflts m !! k).
Proof.
  revert dflts m.
  induction tail as [|a tail IH]; intros [|d dflts] m Hlen Hk; simpl in *;
    try (by apply elem_of_nil in Hk); try lia.
  apply elem_of_cons in Hk as [->|Hk].
  - apply (fill_defaults_mono tail dflts). case_bool_decide; [done|].
    by rewrite lookup_insert_eq.
  - apply (IH dflts); [lia|done].
Qed.

Lemma fill_kwonly_complete kd kwonlyargs (m m' : gmap string value) :
  fill_kwonly kd kwonlyargs m = (m', 0) →
  (∀ k, is_Some (m !! k) → is_Some (m' !! k))
  ∧ (∀ k, k ∈ kwonlyargs → is_Some (m' !! k)).
Proof.
  unfold fill_kwonly.
  match goal with |- context [foldl ?f _ _] => set (step := f) end.
  assert (∀ ks (m0 m1 : gmap string value) c c',
            foldl step (m0, c) ks = (m1, c') →
            c <= c'
            ∧ (∀ k, is_Some (m0 !! k) → is_Some (m1 !! k))
            ∧ (c' = c → ∀ k, k ∈ ks → is_Some (m1 !! k))) as Hgen.
  { induction ks as [|k0 ks IH]; intros m0 m1 c c'; simpl.
    { intros [= <- <-]. split_and!; [lia|done|].
      intros _ k Hk. by apply elem_of_nil in Hk. }
    case_bool_decide as Hk0.
    - intros (Hle & Hmono & Hall)%IH. split_and!; [done..|].
      intros Hc k [->|Hk]%elem_of_cons; [by apply Hmono | by apply Hall].
    - destruct (kd ≫= _) as [d|].
      + intros (Hle & Hmono & Hall)%IH.
        assert (∀ k, is_Some (m0 !! k) → is_Some (<[k0 := d]> m0 !! k)) as Hins.
        { intros k Hs. rewrite lookup_insert. by case_decide. }
        split_and!; [done|by intros k ?; apply Hmono, Hins|].
        intros Hc k [->|Hk]%elem_of_cons; [|by apply Hall].
        apply Hmono. by rewrite lookup_insert_eq.
      + intros (Hle & Hmono & Hall)%IH. split_and!; [lia|done|]. lia. }
  intros Hf. destruct (Hgen _ _ _ _ _ Hf) as (_ & Hmono & Hall).
  split; [done|]. by apply Hall.
Qed.

Lemma getcallargs_binds_all func positional named bound :
  well_formed func →
  getcallargs func positional named = Ok bound →
  ∀ k, k ∈ (p_name <$> sig_positional func) ++ (p_name <$> sig_kwonly func) →
       is_Some (bound !! k).
Proof.
  intros [Htrail Hnd] Hcall.
  assert (NoDup (p_name <$> sig_positional func)) as Hnd_args
    by (unfold names in Hnd; by apply NoDup_app in Hnd as [? _]).
  assert (∀ m : gmap string value, ∀ k i,
            (p_name <$> sig_positional func) !! i = Some k →
            i < length positional →
            m = bind_positional (p_name <$> sig_positional func) positional →
            is_Some (m !! k)) as Hbp.
  { intros m k i Hi Hlt ->.
    destruct (lookup_lt_is_Some_2 positional i Hlt) as [v Hv].
    rewrite (bind_positional_lookup _ _ _ _ _ Hnd_args Hi Hv). eauto. }
  assert (∀ (m : gmap string value) k k' x,
            is_Some (m !! k) → is_Some (<[k' := x]> m !! k)) as Hins.
  { intros m k k' x Hs. rewrite lookup_insert. by case_decide. }
  revert Hcall. unfold getcallargs. simpl.
  match goal with |- context [bind_named ?vk ?poss ?nm ?m] =>
    pose proof (λ m' k, bind_named_mono vk poss nm m m' k) as Hbn;
    assert (∀ k i, (p_name <$> sig_positional func) !! i = Some k →
                   i < length positional → is_Some (m !! k)) as Hm0;
    [|destruct (bind_named vk poss nm m) as [m1|e1]; [|done]] end.
  { intros k i Hi Hlt.
    destruct (sig_varkw func); [apply Hins|];
      (destruct (sig_varargs func); [apply Hins|]); by eapply Hbp. }
  assert (∀ k i, (p_name <$> sig_positional func) !! i = Some k →
                 i < length positional → is_Some (m1 !! k)) as Hm1
    by (intros k i Hi Hlt; eapply Hbn; eauto).
  clear Hbn Hm0. simpl.
  destruct (bool_decide (_ < _) && _); simpl; [done|].
  rewrite length_fmap.
  assert (default [] (if decide (omap p_default (sig_positional func) = [])
                      then None else Some (omap p_default (sig_positional func)))
          = omap p_default (sig_positional func)) as ->.
  { case_decide as Hnil; [by rewrite Hnil | done]. }
  assert (∀ m2 : gmap string value,
            (if bool_decide (length positional < length (sig_positional func))
             then
               if bool_decide
                    (Forall (λ arg, is_Some (m1 !! arg))
                       (take (length (sig_positional func)
                              - length (omap p_default (sig_positional func)))
                          (p_name <$> sig_positional func)))
               then Ok (fill_defaults
                          (drop (length (sig_positional func)
                                 - length (omap p_default (sig_positional func)))
                             (p_name <$> sig_positional func))
                          (omap p_default (sig_positional func)) m1)
               else Raise (missing_arguments
                             (take (length (sig_positional func)
                                    - length (omap p_default (sig_positional func)))
                                (p_name <$> sig_positional func)) true m1)
             else Ok m1) = Ok m2 →
            ∀ k, k ∈ p_name <$> sig_positional func → is_Some (m2 !! k)) as Hm2.
  { intros m2. case_bool_decide as Hfew.
    - case_bool_decide as Hreq; [|done]. intros [= <-] k Hk.
      apply list_elem_of_lookup in Hk as [i Hi].
      set (cut := length (sig_positional func)
                  - length (omap p_default (sig_positional func))) in *.
      destruct (decide (i < cut)) as [Hlo|Hhi].
      + apply fill_defaults_mono. rewrite Forall_forall in Hreq. apply Hreq.
        apply elem_of_take. eauto.
      + apply fill_defaults_covers.
        * rewrite length_drop, length_fmap. unfold cut. lia.
        * apply list_elem_of_lookup. exists (i - cut).
          rewrite lookup_drop. rewrite <- Hi. f_equal. lia.
    - intros [= <-] k Hk. apply list_elem_of_lookup in Hk as [i Hi].
      apply (Hm1 k i Hi). apply lookup_lt_Some in Hi. rewrite length_fmap in Hi. lia. }
  match goal with |- context [mbind _ ?c] =>
    destruct c as [m2|e2] eqn:Hphase; [|done] end.
  specialize (Hm2 m2 eq_refl). simpl.
  destruct (fill_kwonly _ _ m2) as [m3 missing] eqn:Hfk.
  destruct missing as [|missing].
  2:{ by rewrite (bool_decide_eq_true_2 (S missing ≠ 0)). }
  rewrite (bool_decide_eq_false_2 (0 ≠ 0)) by (intros Hne; by apply Hne).
  intros [= <-].
  destruct (fill_kwonly_complete _ _ _ _ Hfk) as [Hmono Hall].
  intros k [Hk|Hk]%elem_of_app; [by apply Hmono, Hm2 | by apply Hall].
Qed.

(** X4. Proxying a function onto itself reproduces the call.  For a
    well-formed function [f] without [**varkw] and an empty [mapping], every
    call that [f] accepts is remapped to positional and keyword arguments
    that bind against [f] to the very same values. *)
Theorem proxy_onto_itself f args kwargs bound :
  well_formed f →
  sig_varkw f = None →
  getcallargs f args kwargs = Ok bound →
  ∃ pos kw,
    proxy_function f f ∅ args kwargs = Ok (pos, kw)
    ∧ getcallargs f pos (map_to_list kw) = Ok bound.
Proof.
  intros Hwf Hvk Hcall. pose proof Hwf as [_ Hnd].
  pose proof (getcallargs_binds_all _ _ _ _ Hwf Hcall) as Hall.
  assert (apply_mapping ∅ bound = bound) as Hvals
    by (unfold apply_mapping; by rewrite decide_True).
  assert (∀ x, x ∉ names f → bound !! x = None) as Hnone.
  { intros x Hx. unfold names in Hx. rewrite Hvk in Hx. simpl in Hx.
    rewrite app_nil_r in Hx.
    apply not_elem_of_app in Hx as [Hx1 [Hx2 Hx3]%not_elem_of_app].
    rewrite (getcallargs_lookup_ne _ _ _ _ x Hcall).
    - destruct (sig_varargs f) as [va|]; [|done].
      rewrite decide_False; [done|]. intros ->. apply Hx2. by left.
    - by apply not_elem_of_app.
    - by rewrite Hvk. }
  assert (∀ r, sig_varargs f = Some r →
               bound !! r = Some (VTuple (drop (length (sig_positional f)) args)))
    as Hrest.
  { intros r Hr. unfold names in Hnd. rewrite Hr, Hvk in Hnd. simpl in Hnd.
    rewrite app_nil_r in Hnd.
    apply NoDup_app in Hnd as (_ & Hdisj & [Hfresh _]%NoDup_cons).
    rewrite (getcallargs_lookup_ne _ _ _ _ r Hcall), Hr.
    - by rewrite decide_True.
    - apply not_elem_of_app. split; [|done].
      intros Hin. apply (Hdisj _ Hin). by left.
    - by rewrite Hvk. }
  destruct (named_positionals_bound (getfullargspec f) bound)
    as (named & Hnamed & Hlook).
  { intros k Hk. apply Hall, elem_of_app. by left. }
  destruct (parse_kwonly_total (kwonlydefaults (getfullargspec f)) bound
              (p_name <$> sig_kwonly f) ∅) as [kw Hkwok].
  { intros k Hk. unfold resolve_kwonly.
    destruct (Hall k) as [v ->]; [apply elem_of_app; by right | eauto]. }
  assert (named_keywords (getfullargspec f) bound = Ok kw) as Hkw.
  { unfold named_keywords. simpl. rewrite Hvk. simpl. exact Hkwok. }
  set (tail := match sig_varargs f with
               | Some _ => drop (length (sig_positional f)) args
               | None => []
               end).
  assert (parse_varargs (sig_varargs f) bound named = Ok (named ++ tail)) as Hva.
  { unfold parse_varargs, tail. destruct (sig_varargs f) as [r|]; simpl.
    - by rewrite (Hrest r eq_refl).
    - by rewrite app_nil_r. }
  exists (named ++ tail), kw.
  assert (proxy_function f f ∅ args kwargs = Ok (named ++ tail, kw)) as Hok.
  { unfold proxy_function. rewrite Hcall. simpl. rewrite Hvals.
    rewrite build_call_eq, Hnamed. simpl. rewrite Hva. simpl.
    by rewrite Hkw. }
  split; [done|].
  destruct (call_shape _ _ _ _ _ Hnamed Hva Hkw Hvk) as (Hle & Hexact & Hdom).
  destruct (getcallargs_exact_lookup f (named ++ tail) kw Hnd Hvk Hle Hexact Hdom)
    as (b & -> & Hbpos & Hbkw & Hbrest & Hbnone).
  f_equal. apply map_eq. intros x.
  pose proof (named_positionals_length _ _ _ Hnamed) as Hlen.
  destruct (decide (x ∈ names f)) as [Hx|Hx]; [|by rewrite Hbnone, Hnone].
  unfold names in Hx. rewrite Hvk in Hx. simpl in Hx. rewrite app_nil_r in Hx.
  apply elem_of_app in Hx as [Hx|[Hx|Hx]%elem_of_app].
  - apply list_elem_of_lookup in Hx as [i Hi].
    rewrite (Hbpos _ _ Hi), <- (Hlook _ _ Hi). apply lookup_app_l.
    rewrite Hlen. apply lookup_lt_Some in Hi. by rewrite length_fmap in Hi.
  - destruct (sig_varargs f) as [r|] eqn:Hr; [|by apply elem_of_nil in Hx].
    apply list_elem_of_singleton in Hx as ->.
    rewrite (Hbrest r eq_refl), (Hrest r eq_refl). do 2 f_equal.
    rewrite <- Hlen, drop_app_length. unfold tail. by rewrite Hlen.
  - rewrite (Hbkw _ Hx).
    destruct (parse_kwonly_Ok _ _ _ _ _ Hkwok) as [Hin _].
    destruct (Hin x Hx) as [-> _]. unfold resolve_kwonly.
    destruct (Hall x) as [v ->]; [apply elem_of_app; by right | done].
Qed.

Lemma first_missing_positional_named_witness :
  proxy_function ab_subfunc b_superfunc ∅ [VInt 5] []
  = Raise (missing_positional "a").
Proof.
  apply (first_missing_positional_named ab_subfunc b_superfunc ∅ [VInt 5] []
           {["b" := VInt 5]} 0 (required "a")).
  - vm_compute. reflexivity.
  - reflexivity.
  - reflexivity.
  - reflexivity.
  - vm_compute. reflexivity.
  - intros j q Hj. lia.
Defined.

Lemma first_missing_keyword_named_witness :
  proxy_function mixed_func nullary {["a" := VInt 1]} [] []
  = Raise (missing_keyword "k").
Proof.
  rewrite (first_missing_keyword_named mixed_func nullary {["a" := VInt 1]} [] []
             ∅ [VInt 1; VInt 2] [VInt 1; VInt 2] ∅ 0 "k").
  - vm_compute. reflexivity.
  - vm_compute. reflexivity.
  - vm_compute. reflexivity.
  - vm_compute. reflexivity.
  - vm_compute. reflexivity.
  - reflexivity.
  - vm_compute. reflexivity.
  - intros j k' Hj. lia.
Defined.

(** *** Defaults, end to end *)

Lemma resolve_positional_absent defaults vals arg_name default_num :
  vals !! arg_name = None →
  resolve_positional defaults vals arg_name default_num
  = default_at defaults default_num.
Proof. unfold resolve_positional. by intros ->. Qed.

(** X7. In a returned call, a positional parameter of [subfunc] that has
    no value receives the default declared at the mirror position among the
    parameters with defaults: position [n - d + (n - 1 - i)] for the parameter
    at position [i] of [n], [d] of which have defaults. *)
Theorem absent_positional_default subfunc superfunc mapping args kwargs bound
    pos kw i p :
  defaults_trail (sig_positional subfunc) = true →
  getcallargs superfunc args kwargs = Ok bound →
  proxy_function subfunc superfunc mapping args kwargs = Ok (pos, kw) →
  sig_positional subfunc !! i = Some p →
  apply_mapping mapping bound !! p_name p = None →
  pos !! i
  = sig_positional subfunc
      !! (length (sig_positional subfunc)
          - length (omap p_default (sig_positional subfunc))
          + (length (sig_positional subfunc) - 1 - i))
      ≫= p_default.
Proof.
  intros Htrail Hcall Hok Hi Hnone.
  destruct (proxy_function_Ok _ _ _ _ _ _ _ _ Hcall Hok) as (named & Hnamed & Hva & _).
  apply parse_varargs_Ok in Hva.
  assert ((p_name <$> sig_positional subfunc) !! i = Some (p_name p)) as Hi'
    by (by rewrite list_lookup_fmap, Hi).
  destruct (named_positionals_lookup _ _ _ _ _ Hnamed Hi') as [Hres [v Hv]].
  rewrite Hva, lookup_app_l by (by apply lookup_lt_Some in Hv).
  rewrite Hres in Hv |- *.
  change (Inspect.args (getfullargspec subfunc))
    with (p_name <$> sig_positional subfunc) in Hv |- *.
  rewrite length_fmap in Hv |- *.
  rewrite (resolve_positional_absent _ _ _ _ Hnone) in Hv |- *.
  rewrite (positional_default_mirrored _ _ _ Htrail Hi) in Hv |- *.
  by destruct (p_default p).
Qed.

Lemma absent_positional_default_witness :
  ([VInt 3; VInt 2; VInt 1] : list value) !! 0
  = sig_positional three_defaults !! (3 - 3 + (3 - 1 - 0)) ≫= p_default.
Proof.
  apply (absent_positional_default three_defaults nullary ∅ [] [] ∅
           [VInt 3; VInt 2; VInt 1] ∅ 0 (optional "a" (VInt 1))).
  - reflexivity.
  - vm_compute. reflexivity.
  - vm_compute. reflexivity.
  - reflexivity.
  - vm_compute. reflexivity.
Defined.

(** X8. When [subfunc] has exactly one positional parameter with a
    default, a returned call gives that parameter its own default whenever it
    has no value. *)
Theorem single_default_used subfunc superfunc mapping args kwargs bound
    pos kw i p :
  defaults_trail (sig_positional subfunc) = true →
  length (omap p_default (sig_positional subfunc)) = 1 →
  getcallargs superfunc args kwargs = Ok bound →
  proxy_function subfunc superfunc mapping args kwargs = Ok (pos, kw) →
  sig_positional subfunc !! i = Some p →
  apply_mapping mapping bound !! p_name p = None →
  pos !! i = p_default p.
Proof.
  intros Htrail Hone Hcall Hok Hi Hnone.
  destruct (proxy_function_Ok _ _ _ _ _ _ _ _ Hcall Hok) as (named & Hnamed & Hva & _).
  apply parse_varargs_Ok in Hva.
  assert ((p_name <$> sig_positional subfunc) !! i = Some (p_name p)) as Hi'
    by (by rewrite list_lookup_fmap, Hi).
  destruct (named_positionals_lookup _ _ _ _ _ Hnamed Hi') as [Hres [v Hv]].
  rewrite Hva, lookup_app_l by (by apply lookup_lt_Some in Hv).
  rewrite Hres.
  change (Inspect.args (getfullargspec subfunc))
    with (p_name <$> sig_positional subfunc).
  rewrite length_fmap, (resolve_positional_absent _ _ _ _ Hnone).
  by apply single_default_is_own.
Qed.

Lemma single_default_used_witness :
  ([VInt 1; VInt 2] : list value) !! 1 = p_default (optional "b" (VInt 2)).
Proof.
  apply (single_default_used one_default a_only ∅ [VInt 1] [] {["a" := VInt 1]}
           [VInt 1; VInt 2] ∅ 1 (optional "b" (VInt 2))).
  - reflexivity.
  - reflexivity.
  - vm_compute. reflexivity.
  - vm_compute. reflexivity.
  - reflexivity.
  - vm_compute. reflexivity.
Defined.

Lemma proxy_onto_itself_witness :
  ∃ pos kw,
    proxy_function mixed_func mixed_func ∅ [VInt 1] [("k", VInt 3)] = Ok (pos, kw)
    ∧ getcallargs mixed_func pos (map_to_list kw)
      = Ok {["a" := VInt 1; "b" := VInt 2; "rest" := VTuple [];
             "k" := VInt 3; "j" := VInt 5]}.
Proof.
  apply (proxy_onto_itself mixed_func [VInt 1] [("k", VInt 3)]).
  - split; [reflexivity|]. apply (bool_decide_unpack _). vm_compute. exact I.
  - reflexivity.
  - vm_compute. reflexivity.
Defined.

(** *** Reordering and renaming *)

(** X9. Reordering the positional and the keyword-only parameters of
    [subfunc] does not change what reaches a name, as long as every
    positional parameter has a value: the reordered [subfunc] gets the same
    keyword arguments, the same value in the slot of every positional name,
    and the same unpacked tail. *)
Theorem reordering_subfunc subfunc subfunc' superfunc mapping args kwargs bound
    pos kw :
  sig_positional subfunc' ≡ₚ sig_positional subfunc →
  sig_kwonly subfunc' ≡ₚ sig_kwonly subfunc →
  sig_varargs subfunc' = sig_varargs subfunc →
  sig_varkw subfunc' = sig_varkw subfunc →
  NoDup (p_name <$> sig_kwonly subfunc) →
  getcallargs superfunc args kwargs = Ok bound →
  Forall (λ p, is_Some (apply_mapping mapping bound !! p_name p))
    (sig_positional subfunc) →
  proxy_function subfunc superfunc mapping args kwargs = Ok (pos, kw) →
  ∃ pos',
    proxy_function subfunc' superfunc mapping args kwargs = Ok (pos', kw)
    ∧ (∀ i j arg_name,
         (p_name <$> sig_positional subfunc) !! i = Some arg_name →
         (p_name <$> sig_positional subfunc') !! j = Some arg_name →
         pos' !! j = pos !! i)
    ∧ drop (length (sig_positional subfunc')) pos'
      = drop (length (sig_positional subfunc)) pos.
Proof.
  intros Hperm Hkperm Hva Hvk Hnd Hcall Hbound. unfold proxy_function.
  rewrite Hcall. simpl. rewrite Forall_forall in Hbound.
  apply order_independent_when_bound; try done.
  by apply kwonlydefaults_permutation.
Qed.

Lemma reordering_subfunc_witness :
  ∃ pos',
    proxy_function doc_subfunc_swapped doc_superfunc {["x" := VInt 1]}
      [VInt 15; VInt 18; VInt 22] [] = Ok (pos', ∅)
    ∧ pos' !! 0 = ([VInt 18; VInt 1] : list value) !! 1.
Proof.
  assert (getcallargs doc_superfunc [VInt 15; VInt 18; VInt 22] []
          = Ok {["x" := VInt 15; "y" := VInt 18; "z" := VInt 22;
                 "kwargs" := VDict []]}) as Hcall by (vm_compute; reflexivity).
  assert (proxy_function doc_subfunc doc_superfunc {["x" := VInt 1]}
            [VInt 15; VInt 18; VInt 22] [] = Ok ([VInt 18; VInt 1], ∅)) as Hok
    by (vm_compute; reflexivity).
  destruct (reordering_subfunc doc_subfunc doc_subfunc_swapped doc_superfunc
              {["x" := VInt 1]} [VInt 15; VInt 18; VInt 22] []
              {["x" := VInt 15; "y" := VInt 18; "z" := VInt 22;
                "kwargs" := VDict []]}
              [VInt 18; VInt 1] ∅) as (pos' & Hok' & Hsame & _).
  - apply perm_swap.
  - reflexivity.
  - reflexivity.
  - reflexivity.
  - constructor.
  - exact Hcall.
  - apply (bool_decide_unpack _). vm_compute. exact I.
  - exact Hok.
  - exists pos'. split; [exact Hok'|]. exact (Hsame 1 0 "x" eq_refl eq_refl).
Defined.

(** X10. The result depends on [superfunc], the call and [mapping] only
    through the values that end up under the parameter names of [subfunc]:
    two calls, of possibly different functions and with different mappings,
    that agree on those names are remapped to the same result. *)
Theorem depends_on_subfunc_names subfunc superfunc superfunc' mapping mapping'
    args args' kwargs kwargs' bound bound' :
  getcallargs superfunc args kwargs = Ok bound →
  getcallargs superfunc' args' kwargs' = Ok bound' →
  Forall (λ k, apply_mapping mapping bound !! k = apply_mapping mapping' bound' !! k)
    (names subfunc) →
  proxy_function subfunc superfunc mapping args kwargs
  = proxy_function subfunc superfunc' mapping' args' kwargs'.
Proof.
  intros Hcall Hcall' Hagree. unfold proxy_function.
  rewrite Hcall, Hcall'. simpl. apply build_call_ext.
  by rewrite Forall_forall in Hagree.
Qed.

Lemma depends_on_subfunc_names_witness :
  proxy_function doc_subfunc doc_superfunc {["x" := VInt 1]}
    [VInt 15; VInt 18; VInt 22] [("something", VStr "something else")]
  = proxy_function doc_subfunc doc_superfunc_reordered ∅
      [VInt 22; VInt 18; VInt 1] [].
Proof.
  apply (depends_on_subfunc_names doc_subfunc doc_superfunc doc_superfunc_reordered
           {["x" := VInt 1]} ∅ _ _ _ _
           {["x" := VInt 15; "y" := VInt 18; "z" := VInt 22;
             "kwargs" := VDict [(KStr "something", VStr "something else")]]}
           {["z" := VInt 22; "y" := VInt 18; "x" := VInt 1; "kwargs" := VDict []]}).
  - vm_compute. reflexivity.
  - vm_compute. reflexivity.
  - repeat constructor; vm_compute; reflexivity.
Defined.

(** *** Rejected calls and values that cannot be unpacked *)

Lemma getcallargs_raises func positional named e :
  NoDup (names func) →
  getcallargs func positional named = Raise e →
  binding_error e.
Proof.
  intros Hnd. unfold getcallargs. simpl.
  match goal with |- context [bind_named ?vk ?poss ?nm ?m] =>
    pose proof (bind_named_raises vk poss nm m) as Hbn;
    destruct (bind_named vk poss nm m) as [m1|e1] end.
  2:{ simpl. intros [= <-]. apply Hbn; [|done].
      intros k Hk. split; [by apply varkw_not_possible|].
      rewrite Hk. eexists. by rewrite lookup_insert_eq. }
  clear Hbn. simpl.
  destruct (bool_decide (_ < _) && _); simpl; [by intros [= <-]|].
  destruct (bool_decide (length positional < _)); simpl.
  - destruct (bool_decide (Forall _ _)); simpl; [|by intros [= <-]].
    destruct (fill_kwonly _ _ _) as [m2 missing].
    destruct (bool_decide (missing ≠ 0)); by intros [= <-].
  - destruct (fill_kwonly _ _ _) as [m2 missing].
    destruct (bool_decide (missing ≠ 0)); by intros [= <-].
Qed.

(** X11. A call that [superfunc] cannot accept is rejected with a binding
    error whatever [subfunc] and [mapping] are: more positional arguments than
    parameters without [*varargs], a keyword that names no parameter without
    [**varkw], or a positional parameter without default that gets neither a
    positional nor a keyword argument. *)
Theorem rejected_calls superfunc args kwargs :
  well_formed superfunc →
  (sig_varargs superfunc = None
   ∧ length (sig_positional superfunc) < length args)
  ∨ (sig_varkw superfunc = None
     ∧ ∃ kw, kw ∈ kwargs.*1
             ∧ kw ∉ (p_name <$> sig_positional superfunc)
                    ++ (p_name <$> sig_kwonly superfunc))
  ∨ (∃ i p, sig_positional superfunc !! i = Some p
            ∧ p_default p = None
            ∧ length args <= i
            ∧ p_name p ∉ kwargs.*1) →
  ∃ e,
    binding_error e
    ∧ ∀ subfunc mapping,
        proxy_function subfunc superfunc mapping args kwargs = Raise e.
Proof.
  intros Hwf Hcases.
  assert (∃ e, getcallargs superfunc args kwargs = Raise e) as [e He].
  { destruct Hcases as [[Hva Hlen]|[[Hvk (kw & Hkw & Hposs)]|(i & p & Hi & Hd & Hlen & Hk)]].
    - by apply getcallargs_too_many.
    - by apply (getcallargs_unexpected_keyword _ _ _ kw).
    - by apply (getcallargs_missing_required _ _ _ i p). }
  exists e. split.
  - destruct Hwf as [_ Hnd]. by apply (getcallargs_raises _ _ _ _ Hnd He).
  - intros subfunc mapping. unfold proxy_function. by rewrite He.
Qed.

Lemma rejected_calls_witness :
  ∃ e,
    binding_error e
    ∧ proxy_function ab_subfunc ab_subfunc {["b" := VInt 6]} [VInt 5] [] = Raise e.
Proof.
  destruct (rejected_calls ab_subfunc [VInt 5] []) as (e & He & Hall).
  - split; [reflexivity|]. apply (bool_decide_unpack _). vm_compute. exact I.
  - right. right. exists 1, (required "b").
    split_and!; [reflexivity | reflexivity | simpl; lia | apply not_elem_of_nil].
  - exists e. split; [exact He | apply Hall].
Defined.

(** X12. The values under the collector names of [subfunc] are unpacked
    as they are: once the named positional values are built, a value under
    the [*varargs] name that cannot be iterated raises a [TypeError], and so
    does, for a [subfunc] without [*varargs], a value under the [**varkw]
    name that is not a dictionary. *)
Theorem collector_type_errors subfunc superfunc mapping args kwargs bound named r v :
  getcallargs superfunc args kwargs = Ok bound →
  named_positionals (getfullargspec subfunc) (apply_mapping mapping bound) = Ok named →
  apply_mapping mapping bound !! r = Some v →
  (sig_varargs subfunc = Some r → iterate v = None →
   proxy_function subfunc superfunc mapping args kwargs
   = Raise (TypeError NotIterable))
  ∧ (sig_varargs subfunc = None → sig_varkw subfunc = Some r →
     (∀ entries, v ≠ VDict entries) →
     proxy_function subfunc superfunc mapping args kwargs
     = Raise (TypeError NotAMapping)).
Proof.
  intros Hcall Hnamed Hv.
  assert (proxy_function subfunc superfunc mapping args kwargs
          = (context_args ← parse_varargs (sig_varargs subfunc)
                               (apply_mapping mapping bound) named;
             context_kwargs ← named_keywords (getfullargspec subfunc)
                                 (apply_mapping mapping bound);
             Ok (context_args, context_kwargs))) as ->.
  { unfold proxy_function. rewrite Hcall. simpl.
    by rewrite build_call_eq, Hnamed. }
  split.
  - intros -> Hit. simpl. by rewrite Hv, Hit.
  - intros -> Hvk Hnd. simpl. unfold named_keywords. simpl.
    rewrite Hvk. simpl. rewrite Hv.
    destruct v; try done. by destruct (Hnd entries).
Qed.

Lemma collector_type_errors_witness :
  proxy_function only_rest rest_param ∅ [VInt 5] [] = Raise (TypeError NotIterable).
Proof.
  assert (getcallargs rest_param [VInt 5] [] = Ok {["rest" := VInt 5]}) as Hcall
    by (vm_compute; reflexivity).
  assert (named_positionals (getfullargspec only_rest)
            (apply_mapping ∅ {["rest" := VInt 5]}) = Ok []) as Hnamed
    by (vm_compute; reflexivity).
  assert (apply_mapping ∅ {["rest" := VInt 5]} !! "rest" = Some (VInt 5)) as Hv
    by (vm_compute; reflexivity).
  exact (proj1 (collector_type_errors only_rest rest_param ∅ [VInt 5] []
                  _ _ "rest" (VInt 5) Hcall Hnamed Hv) eq_refl eq_refl).
Defined.

(** *** Keywords collected by [**varkw] *)

Lemma dict_setitem_keys d k v :
  (dict_setitem d k v).*1 = if decide (k ∈ d.*1) then d.*1 else d.*1 ++ [k].
Proof.
  induction d as [|[k' v'] d IH]; csimpl; [done|].
  destruct (decide (k' = k)) as [->|Hne]; csimpl.
  - rewrite decide_True; [done | by left].
  - rewrite IH. destruct (decide (k ∈ d.*1)) as [Hin|Hnin].
    + rewrite decide_True; [done | by right].
    + rewrite decide_False; [done|].
      intros [?|?]%elem_of_cons; [by subst | done].
Qed.

Lemma dict_setitem_NoDup d k v :
  NoDup d.*1 → NoDup (dict_setitem d k v).*1.
Proof.
  intros Hnd. rewrite dict_setitem_keys. case_decide as Hin; [done|].
  apply NoDup_app. split_and!; [done| |apply NoDup_singleton].
  intros x Hx ->%list_elem_of_singleton. done.
Qed.

Lemma dict_setitem_here d k v : (k, v) ∈ dict_setitem d k v.
Proof.
  induction d as [|[k' v'] d IH]; simpl; [by left|].
  case_decide; [by left | by right].
Qed.

Lemma dict_setitem_other d k v k' v' :
  k' ≠ k → (k', v') ∈ d → (k', v') ∈ dict_setitem d k v.
Proof.
  intros Hne. induction d as [|[k0 v0] d IH]; simpl;
    [by intros ?%elem_of_nil|].
  intros [[= -> ->]|Hin]%elem_of_cons.
  - rewrite decide_False by done. by left.
  - case_decide; right; [done | by apply IH].
Qed.

Lemma keywords_lookup_ne entries acc (g : gmap string value) s :
  keywords entries acc = Ok g → KStr s ∉ entries.*1 → g !! s = acc !! s.
Proof.
  revert acc. induction entries as [|[[z|s0] v0] entries IH]; intros acc; simpl.
  - by intros [= <-].
  - done.
  - intros Hk [Hne Hnin]%not_elem_of_cons. rewrite (IH _ Hk Hnin).
    apply lookup_insert_ne. by intros ->.
Qed.

Lemma keywords_lookup entries acc (g : gmap string value) s v :
  keywords entries acc = Ok g → NoDup entries.*1 → (KStr s, v) ∈ entries →
  g !! s = Some v.
Proof.
  revert acc. induction entries as [|[[z|s0] v0] entries IH]; intros acc; simpl.
  - intros _ _ Hin. by apply elem_of_nil in Hin.
  - done.
  - intros Hk [Hfresh Hnd]%NoDup_cons [[= <- <-]|Hin]%elem_of_cons.
    + rewrite (keywords_lookup_ne _ _ _ _ Hk Hfresh). apply lookup_insert_eq.
    + by apply (IH _ Hk).
Qed.

Lemma bind_named_collects vk possible named (m m' : gmap string value) k v :
  vk ∉ possible → k ∉ possible →
  NoDup named.*1 →
  (∃ d, m !! vk = Some (VDict d) ∧ NoDup d.*1
        ∧ ((KStr k, v) ∈ d ∧ k ∉ named.*1 ∨ (k, v) ∈ named)) →
  bind_named (Some vk) possible named m = Ok m' →
  ∃ d', m' !! vk = Some (VDict d') ∧ NoDup d'.*1 ∧ (KStr k, v) ∈ d'.
Proof.
  intros Hvk Hk. revert m.
  induction named as [|[kw0 v0] named IH]; intros m Hnd (d & Hd & Hdnd & Hcase); simpl.
  { intros [= <-]. exists d. split_and!; [done..|].
    destruct Hcase as [[? _]|Hin]; [done | by apply elem_of_nil in Hin]. }
  simpl in Hnd. apply NoDup_cons in Hnd as [Hfresh Hnd].
  case_bool_decide as Hposs.
  - case_bool_decide; [done|]. apply IH; [done|].
    exists d. split_and!; [|done|].
    + rewrite lookup_insert_ne; [done|]. by intros ->.
    + destruct Hcase as [[Hin Hnin]|Hin].
      * left. split; [done|]. simpl in Hnin. by apply not_elem_of_cons in Hnin as [_ ?].
      * apply elem_of_cons in Hin as [[= -> ->]|Hin]; [done | by right].
  - rewrite Hd. apply IH; [done|].
    exists (dict_setitem d (KStr kw0) v0). split_and!.
    + by rewrite lookup_insert_eq.
    + by apply dict_setitem_NoDup.
    + destruct Hcase as [[Hin Hnin]|Hin].
      * left. simpl in Hnin. apply not_elem_of_cons in Hnin as [Hne Hnin].
        split; [|done]. apply dict_setitem_other; [|done]. by intros [= ->].
      * apply elem_of_cons in Hin as [[= -> ->]|Hin]; [|by right].
        left. split; [apply dict_setitem_here | done].
Qed.

Lemma getcallargs_collects func positional named bound vk k v :
  well_formed func →
  sig_varkw func = Some vk →
  NoDup named.*1 →
  (k, v) ∈ named →
  k ∉ (p_name <$> sig_positional func) ++ (p_name <$> sig_kwonly func) →
  getcallargs func positional named = Ok bound →
  ∃ d, bound !! vk = Some (VDict d) ∧ NoDup d.*1 ∧ (KStr k, v) ∈ d.
Proof.
  intros [_ Hnd] Hvk Hnamed Hin Hk.
  pose proof (varkw_not_possible _ _ Hnd Hvk) as Hvkposs.
  pose proof Hvkposs as [Hvk1 Hvk2]%not_elem_of_app.
  unfold getcallargs. simpl. rewrite Hvk.
  match goal with |- context [bind_named (Some vk) ?poss named ?m] =>
    pose proof (λ m', bind_named_collects vk poss named m m' k v Hvkposs Hk Hnamed)
      as Hbn;
    destruct (bind_named (Some vk) poss named m) as [m1|e1]; [|done] end.
  destruct (Hbn m1) as (d & Hd & Hdnd & Hdin); [|done|].
  { exists []. split_and!; [by rewrite lookup_insert_eq | constructor | by right]. }
  clear Hbn. simpl.
  destruct (bool_decide (_ < _) && _); simpl; [done|].
  match goal with |- context [fill_kwonly ?kd ?ks] =>
    pose proof (λ m, fill_kwonly_lookup_ne kd ks m vk Hvk2) as Hfk end.
  intros Hrest. exists d. split_and!; [|done..]. rewrite <- Hd.
  revert Hrest. destruct (bool_decide (length positional < _)); simpl.
  - destruct (bool_decide (Forall _ _)); simpl; [|done].
    match goal with |- context [fill_kwonly _ _ ?m] =>
      specialize (Hfk m); destruct (fill_kwonly _ _ m) as [m2 missing] end.
    destruct (bool_decide (missing ≠ 0)); [done|]. intros [= <-]. simpl in Hfk.
    rewrite Hfk. apply fill_defaults_lookup_ne.
    intros Hmem. by apply subseteq_drop in Hmem.
  - match goal with |- context [fill_kwonly _ _ ?m] =>
      specialize (Hfk m); destruct (fill_kwonly _ _ m) as [m2 missing] end.
    destruct (bool_decide (missing ≠ 0)); [done|]. intros [= <-]. by simpl in Hfk.
Qed.

(** X13. Keywords pass through the collector.  When [superfunc] and
    [subfunc] both declare [**vk] and [mapping] has no entry for [vk], a
    keyword of the call that names no parameter of [superfunc] is in the
    returned keyword arguments with its value, unless it is the name of a
    keyword-only parameter of [subfunc]. *)
Theorem rest_keyword_pass_through subfunc superfunc mapping args kwargs vk k v
    pos kw :
  well_formed superfunc →
  sig_varkw superfunc = Some vk →
  sig_varkw subfunc = Some vk →
  mapping !! vk = None →
  NoDup kwargs.*1 →
  (k, v) ∈ kwargs →
  k ∉ (p_name <$> sig_positional superfunc) ++ (p_name <$> sig_kwonly superfunc) →
  k ∉ p_name <$> sig_kwonly subfunc →
  proxy_function subfunc superfunc mapping args kwargs = Ok (pos, kw) →
  kw !! k = Some v.
Proof.
  intros Hwf Hsuper Hsub Hmap Hnd Hin Hk Hksub
    (bound & named & Hcall & _ & _ & Hkw)%proxy_function_inv.
  destruct (getcallargs_collects _ _ _ _ vk k v Hwf Hsuper Hnd Hin Hk Hcall)
    as (d & Hd & Hdnd & Hdin).
  revert Hkw. unfold named_keywords. simpl. rewrite Hsub. simpl.
  rewrite apply_mapping_lookup, Hmap, Hd. simpl.
  destruct (keywords d ∅) as [ctx|] eqn:Hctx; simpl; [|done].
  intros [_ Hout]%parse_kwonly_Ok. rewrite (Hout k Hksub).
  by apply (keywords_lookup _ _ _ _ _ Hctx).
Qed.

Lemma rest_keyword_pass_through_witness :
  ({["something" := VStr "something else"]} : gmap string value) !! "something"
  = Some (VStr "something else").
Proof.
  apply (rest_keyword_pass_through doc_subfunc_kwargs doc_superfunc ∅
           [VInt 15; VInt 18; VInt 22] [("something", VStr "something else")]
           "kwargs" "something" (VStr "something else") [VInt 18; VInt 15]).
  - split; [reflexivity|]. apply (bool_decide_unpack _). vm_compute. exact I.
  - reflexivity.
  - reflexivity.
  - reflexivity.
  - apply (bool_decide_unpack _). vm_compute. exact I.
  - left.
  - apply (bool_decide_unpack _). vm_compute. exact I.
  - apply not_elem_of_nil.
  - vm_compute. reflexivity.
Defined.
